(** * Verification of the interval brancher and the still-life model

    A shallow embedding of [A4/interval.cpp] (the custom Gecode brancher
    that forces mandatory parts) and of [A4/MaximumDensityStillLife.cpp]
    (the maximum-density still-life model), together with the properties
    their specification states about them.

    The programs are clients of the Gecode library.  The few library
    operations they call are modelled here from their documented
    meaning: an integer view is the finite set of values still possible
    for its variable, a posted constraint is a predicate on assignments. *)

From Stdlib Require Import String.
From Stdlib Require Import ZArith Lia List Bool Sorted Floats.
Import ListNotations.
Local Open Scope Z_scope.

(** ** C++ [int], [unsigned int] and [double] *)

Module Int.

(** An [int] is an integer of 32 bits.  Its arithmetic is written with
    the wrap-around of two's complement machines, which is what the
    usual targets compute where the C++ standard leaves signed overflow
    undefined. *)

Definition min_int : Z := -2147483648.
Definition max_int : Z := 2147483647.

Definition in_range (z : Z) : Prop := min_int <= z <= max_int.

(** Two's complement wrap-around to 32 bits. *)
Definition wrap (z : Z) : Z := (z + 2147483648) mod 4294967296 - 2147483648.

Definition add (a b : Z) : Z := wrap (a + b).
Definition sub (a b : Z) : Z := wrap (a - b).

(** [static_cast<unsigned int>(i)] and [static_cast<int>(u)]. *)
Definition to_unsigned (i : Z) : Z := i mod 4294967296.
Definition of_unsigned (u : Z) : Z := wrap u.

(** The implicit conversion of an [int] to [double]; it is exact, every
    32-bit integer being a binary64 number. *)
Definition to_double (i : Z) : float :=
  if i <? 0 then PrimFloat.opp (PrimFloat.of_uint63 (Uint63.of_Z (- i)))
  else PrimFloat.of_uint63 (Uint63.of_Z i).

(** [i < d] and [i >= d] for an [int] i and a [double] d. *)
Definition lt_double (i : Z) (d : float) : bool := PrimFloat.ltb (to_double i) d.
Definition ge_double (i : Z) (d : float) : bool := PrimFloat.leb d (to_double i).

End Int.

(** ** Rounding to binary64 *)

Module Binary64.

(** The last step of [binary_round_aux]: the rounded mantissa [m1] is
    shifted once more if rounding carried, and the result is built. *)
Definition finish (s : bool) (m1 e1 : Z) : spec_float :=
  let '(mrs, e2) := shr_fexp prec emax m1 e1 loc_Exact in
  match shr_m mrs with
  | Z0 => S754_zero s
  | Zpos m => if e2 <=? emax - prec then S754_finite s m e2 else S754_infinity s
  | Zneg _ => S754_nan
  end.

End Binary64.

(** ** The part of Gecode the brancher uses *)

Module Gecode.

(** [Gecode::Int::Limits]. *)
Definition Limits_max : Z := 2147483646.
Definition Limits_min : Z := -2147483646.

Inductive ModEvent := ME_INT_FAILED | ME_INT_NONE | ME_INT_VAL | ME_INT_BND.

Definition me_failed (me : ModEvent) : bool :=
  match me with ME_INT_FAILED => true | _ => false end.

Inductive ExecStatus := ES_FAILED | ES_OK.

Inductive Exception := ArgumentSizeMismatch (location : string).

(** An integer view, as the values of its variable's domain in
    increasing order: the order in which [IntVarValues] iterates. *)
Definition IntView := list Z.

Definition min (v : IntView) : Z := hd 0 v.
Definition max (v : IntView) : Z := last v 0.
Definition assigned (v : IntView) : bool := min v =? max v.
Definition values (v : IntView) : list Z := v.

(** The event reported when a domain shrinks from [v] to the non-empty [v']. *)
Definition shrunk (v v' : IntView) : ModEvent :=
  if (length v' =? length v)%nat then ME_INT_NONE
  else if assigned v' then ME_INT_VAL else ME_INT_BND.

(** [x.lq(home,n)]: keep the values that are at most [n]. *)
Definition lq (v : IntView) (n : Z) : ModEvent * IntView :=
  match filter (fun u => u <=? n) v with
  | [] => (ME_INT_FAILED, v)
  | v' => (shrunk v v', v')
  end.

(** [x.gr(home,n)]: keep the values that are greater than [n]. *)
Definition gr (v : IntView) (n : Z) : ModEvent * IntView :=
  match filter (fun u => n <? u) v with
  | [] => (ME_INT_FAILED, v)
  | v' => (shrunk v v', v')
  end.

(** A domain of a space that has not failed: not empty, strictly
    increasing, within the limits. *)
Definition dom_ok (v : IntView) : Prop :=
  v <> [] /\ StronglySorted Z.lt v /\ Forall (fun u => Limits_min <= u <= Limits_max) v.

(** An [Archive]: a queue of [unsigned int]. *)
Definition Archive := list Z.

Definition put (e : Archive) (u : Z) : Archive := e ++ [u].

Definition get (e : Archive) : option (Z * Archive) :=
  match e with
  | [] => None
  | u :: e' => Some (u, e')
  end.

(** [e << i] and [e >> i] for an [int] i. *)
Definition put_int (e : Archive) (i : Z) : Archive := put e (Int.to_unsigned i).

Definition get_int (e : Archive) : option (Z * Archive) :=
  match get e with
  | Some (u, e') => Some (Int.of_unsigned u, e')
  | None => None
  end.

End Gecode.

(** ** [A4/interval.cpp] *)

Module IntervalBrancher.
Import Gecode.

(** The brancher: its identity within the space (from [Brancher]), the
    views, the widths, the percentage and the cache.  The cache is an
    index into [x]: it starts at 0 and [status] only ever stores an index
    it has visited, so it is a natural number. *)
Record IntervalBrancher := mkBrancher {
  id : Z;
  x : list IntView;
  w : list Z;
  p : float;
  start : nat
}.

(** The description: the brancher's identity and the number of
    alternatives (from [Choice]), then the class's three fields. *)
Record Description := mkDescription {
  choice_id : Z;
  alternatives : Z;
  pos : Z;
  split_point : Z;
  alt : Z
}.

(** [Description(b,a,p,split_point)], [a] being an [unsigned int] that
    the field [alt], an [int], is initialised with. *)
Definition new_Description (b : IntervalBrancher) (a : Z) (p0 : Z) (sp : Z) : Description :=
  {| choice_id := id b; alternatives := a; pos := p0; split_point := sp;
     alt := Int.of_unsigned a |}.

(** [Choice::archive] writes the identity; [Description::archive] then
    writes [split_point], [alt] and [pos]. *)
Definition Choice_archive (d : Description) (e : Archive) : Archive :=
  put e (choice_id d).

Definition archive (d : Description) (e : Archive) : Archive :=
  put_int (put_int (put_int (Choice_archive d e) (split_point d)) (alt d)) (pos d).

(** The copy constructor used during cloning. *)
Definition copy (b : IntervalBrancher) : IntervalBrancher :=
  {| id := id b; x := x b; w := map (fun wi => wi) (w b); p := p b; start := start b |}.

(** The test in [status]:
    [(x[i].min() + w[i]) - x[i].max() < p*w[i] && !x[i].assigned()]. *)
Definition selects (p0 : float) (v : IntView) (wi : Z) : bool :=
  Int.lt_double (Int.sub (Int.add (min v) wi) (max v)) (PrimFloat.mul p0 (Int.to_double wi))
  && negb (assigned v).

(** The loop of [status], from index [i] on the views and widths that
    are left: the first index that [selects] accepts. *)
Fixpoint status_scan (p0 : float) (xs : list IntView) (ws : list Z) (i : nat) : option nat :=
  match xs, ws with
  | v :: xs', wi :: ws' =>
      if selects p0 v wi then Some i else status_scan p0 xs' ws' (S i)
  | _, _ => None
  end.

Definition set_start (b : IntervalBrancher) (i : nat) : IntervalBrancher :=
  {| id := id b; x := x b; w := w b; p := p b; start := i |}.

(** [status]: the result, and the brancher with its cache updated. *)
Definition status (b : IntervalBrancher) : bool * IntervalBrancher :=
  match status_scan (p b) (skipn (start b) (x b)) (skipn (start b) (w b)) (start b) with
  | Some i => (true, set_start b i)
  | None => (false, b)
  end.

(** The test in [choice]:
    [((x[start].min() + w[start]) - k.val()) >= p*w[start]]. *)
Definition slack_ge (p0 : float) (v : IntView) (wi : Z) (k : Z) : bool :=
  Int.ge_double (Int.sub (Int.add (min v) wi) k) (PrimFloat.mul p0 (Int.to_double wi)).

(** The loop of [choice] over the values of the view; [None] is the
    local [split_point] before its first assignment. *)
Definition choice_loop (p0 : float) (v : IntView) (wi : Z) (ks : list Z)
    (sp : option Z) : option Z :=
  fold_left (fun sp k => if slack_ge p0 v wi k then Some k else sp) ks sp.

(** [choice(Space&)].  No result when [split_point] is read without
    having been assigned, or when [start] is not an index of [x]. *)
Definition choice (b : IntervalBrancher) : option Description :=
  match nth_error (x b) (start b), nth_error (w b) (start b) with
  | Some v, Some wi =>
      match choice_loop (p b) v wi (values v) None with
      | Some sp => Some (new_Description b 2 (Z.of_nat (start b)) sp)
      | None => None
      end
  | _, _ => None
  end.

(** [choice(const Space&, Archive&)]. *)
Definition choice_archive (b : IntervalBrancher) (e : Archive) : option Description :=
  match get_int e with
  | Some (sp, e1) =>
      match get_int e1 with
      | Some (alternatives0, e2) =>
          match get_int e2 with
          | Some (position, _) =>
              Some (new_Description b (Int.to_unsigned alternatives0) position sp)
          | None => None
          end
      | None => None
      end
  | None => None
  end.


Definition set_view (b : IntervalBrancher) (i : nat) (v : IntView) : IntervalBrancher :=
  {| id := id b;
     x := firstn i (x b) ++ v :: skipn (S i) (x b);
     w := w b; p := p b; start := start b |}.

(** [commit]: the status, and the brancher with [x[position]] narrowed.
    No result when [position] is not an index of [x]. *)
Definition commit (b : IntervalBrancher) (d : Description) (a : Z)
    : option (ExecStatus * IntervalBrancher) :=
  let split_point0 := split_point d in
  let position := pos d in
  if position <? 0 then None else
  match nth_error (x b) (Z.to_nat position) with
  | None => None
  | Some v =>
      if a =? 0 then
        let (me, v') := lq v split_point0 in
        if negb (me_failed me) then Some (ES_OK, set_view b (Z.to_nat position) v')
        else Some (ES_FAILED, b)
      else
        let (me, v') := gr v split_point0 in
        if negb (me_failed me) then Some (ES_OK, set_view b (Z.to_nat position) v')
        else Some (ES_FAILED, b)
  end.

(** The values left for [x[i]] in the node a commit produced: none in a
    failed node. *)
Definition left_values (r : option (ExecStatus * IntervalBrancher)) (i : nat) : list Z :=
  match r with
  | Some (ES_OK, b') => match nth_error (x b') i with Some v => values v | None => [] end
  | _ => []
  end.

(** The space [interval] posts into: whether it has failed, and its
    branchers in the order they were posted. *)
Record Space := mkSpace {
  failed : bool;
  branchers : list IntervalBrancher
}.

(** [IntervalBrancher::post], through the constructor. *)
Definition post (home : Space) (x0 : list IntView) (w0 : list Z) (p0 : float) : Space :=
  {| failed := failed home;
     branchers := branchers home ++
       [ {| id := Z.of_nat (length (branchers home)); x := x0; w := w0; p := p0; start := 0 |} ] |}.

(** [interval(home,x,w,p)]. *)
Definition interval (home : Space) (x0 : list IntView) (w0 : list Z) (p0 : float)
    : Exception + Space :=
  if negb (length x0 =? length w0)%nat then inl (ArgumentSizeMismatch "interval")
  else if failed home then inr home
  else
    let vx := x0 in
    let wc := map (fun wi => wi) w0 in
    inr (post home vx wc p0).

(** The invariant [interval] establishes and [copy] keeps: as many
    widths as views, a number of views that an [int] holds, and views
    of a space that has not failed. *)
Definition wf (b : IntervalBrancher) : Prop :=
  length (w b) = length (x b)
  /\ Z.of_nat (length (x b)) <= Int.max_int
  /\ Forall dom_ok (x b).

(** What the specification says of the variable [status] looks for:
    [x[i]] is unassigned and [(x[i].min() + w[i]) - x[i].max() < p*w[i]]. *)
Definition selected_at (b : IntervalBrancher) (i : nat) : Prop :=
  exists v wi,
    nth_error (x b) i = Some v /\ nth_error (w b) i = Some wi
    /\ assigned v = false
    /\ Int.lt_double (Int.sub (Int.add (min v) wi) (max v))
                     (PrimFloat.mul (p b) (Int.to_double wi)) = true.

(** What the specification says of the split point: [k] is the largest
    value of the domain with [(min + wi) - k >= p*wi]. *)
Definition largest_slack_value (p0 : float) (v : IntView) (wi : Z) (k : Z) : Prop :=
  In k (values v)
  /\ Int.ge_double (Int.sub (Int.add (min v) wi) k)
                   (PrimFloat.mul p0 (Int.to_double wi)) = true
  /\ forall k', In k' (values v) ->
       Int.ge_double (Int.sub (Int.add (min v) wi) k')
                     (PrimFloat.mul p0 (Int.to_double wi)) = true ->
       k' <= k.

(** The scenario of the specification: one variable with domain
    [[0,10]], width 4, fraction 0.5. *)
Definition scenario : IntervalBrancher :=
  {| id := 0; x := [ [0; 1; 2; 3; 4; 5; 6; 7; 8; 9; 10] ]; w := [4];
     p := 0.5%float; start := 0 |}.

(** The test by which [commit] narrows the domain, for the alternative
    [a] of [d]: at most the split point for alternative 0, above it
    for any other. *)
Definition keeps (d : Description) (a : Z) : Z -> bool :=
  if a =? 0 then (fun u => u <=? split_point d) else (fun u => split_point d <? u).

(** The cache is sound: [status] would select no variable before it. *)
Definition cache_ok (b : IntervalBrancher) : Prop :=
  forall j, (j < start b)%nat -> ~ selected_at b j.

(** The slack of every variable is computed without overflow, whatever
    the bounds of its domain become within the present ones. *)
Definition widths_fit (b : IntervalBrancher) : Prop :=
  forall i v wi,
    nth_error (x b) i = Some v -> nth_error (w b) i = Some wi ->
    Int.in_range (min v + wi) /\ Int.in_range (max v + wi)
    /\ Int.in_range (min v + wi - max v) /\ Int.in_range (max v + wi - min v).

(** The choice of the scenario, and the brancher its first alternative leaves. *)
Definition scenario_choice : Description := new_Description scenario 2 0 2.

Definition scenario_left : IntervalBrancher :=
  {| id := 0; x := [ [0; 1; 2] ]; w := [4]; p := 0.5%float; start := 0 |}.

(** The scenario with the fraction 2 in place of 0.5: [status] selects
    the variable, as [(0 + 4) - 10 < 2 * 4], and no value [k] of the
    domain has [(0 + 4) - k >= 2 * 4]. *)
Definition overshoot : IntervalBrancher :=
  {| id := 0; x := [ [0; 1; 2; 3; 4; 5; 6; 7; 8; 9; 10] ]; w := [4];
     p := 2%float; start := 0 |}.

End IntervalBrancher.

(** ** [A4/MaximumDensityStillLife.cpp] *)

Module StillLife.

(** The variables of the space: the three members, and the three
    Boolean variables the constructor creates for the cell at
    ([col],[row]) in its loop. *)
Inductive Var :=
| cells_at (i : Z)
| sliceOfMDP_at (i : Z)
| noOfLives_var
| two_neighbours (col row : Z)
| three_neighbours (col row : Z)
| still_live (col row : Z).

Definition Assignment := Var -> Z.

Inductive IntRelType := IRT_EQ | IRT_LE | IRT_GR.
Inductive BoolOpType := BOT_OR.

(** Boolean expressions: a variable, [!e], [e1 >> e2]. *)
Inductive BoolExpr :=
| BE_var (v : Var)
| BE_not (e : BoolExpr)
| BE_imp (e1 e2 : BoolExpr).

(** Linear expressions: a variable, [sum(vs)], and the value of an
    expression over the assigned variables of another space. *)
Inductive LinExpr :=
| LE_var (v : Var)
| LE_sum (vs : list Var)
| LE_val (z : Z).

(** What the model posts. *)
Inductive Constraint :=
| dom (v : Var) (lo hi : Z)
| linear (vs : list Var) (irt : IntRelType) (c : Z)
| linear_var (vs : list Var) (irt : IntRelType) (y : Var)
| linear_reif (vs : list Var) (irt : IntRelType) (c : Z) (b : Var)
| rel_bot (b0 : Var) (o : BoolOpType) (b1 : Var) (b2 : Var)
| rel_bool (e : BoolExpr)
| rel_lin (l : LinExpr) (irt : IntRelType) (r : LinExpr).

Definition irt_holds (irt : IntRelType) (l r : Z) : bool :=
  match irt with
  | IRT_EQ => l =? r
  | IRT_LE => l <? r
  | IRT_GR => r <? l
  end.

Definition sum_of (a : Assignment) (vs : list Var) : Z :=
  fold_right (fun v s => a v + s) 0 vs.

Definition truth (a : Assignment) (v : Var) : bool := a v =? 1.

Fixpoint eval_bool (a : Assignment) (e : BoolExpr) : bool :=
  match e with
  | BE_var v => truth a v
  | BE_not e' => negb (eval_bool a e')
  | BE_imp e1 e2 => implb (eval_bool a e1) (eval_bool a e2)
  end.

Definition eval_lin (a : Assignment) (l : LinExpr) : Z :=
  match l with
  | LE_var v => a v
  | LE_sum vs => sum_of a vs
  | LE_val z => z
  end.

(** Whether an assignment of all the variables satisfies a constraint. *)
Definition holds (a : Assignment) (c : Constraint) : bool :=
  match c with
  | dom v lo hi => (lo <=? a v) && (a v <=? hi)
  | linear vs irt c0 => irt_holds irt (sum_of a vs) c0
  | linear_var vs irt y => irt_holds irt (sum_of a vs) (a y)
  | linear_reif vs irt c0 b => Bool.eqb (irt_holds irt (sum_of a vs) c0) (truth a b)
  | rel_bot b0 BOT_OR b1 b2 => Bool.eqb (truth a b0 || truth a b1) (truth a b2)
  | rel_bool e => eval_bool a e
  | rel_lin l irt r => irt_holds irt (eval_lin a l) (eval_lin a r)
  end.

Record MaximumDensityStillLife := mkSpace {
  cells : list Var;
  sliceOfMDP : list Var;
  noOfLives : Var;
  board_size : Z;
  posted : list Constraint
}.

(** The integers [lo], ..., [hi-1]: the values a [for] loop counter takes. *)
Definition range (lo hi : Z) : list Z :=
  map (fun i => lo + Z.of_nat i) (seq 0 (Z.to_nat (hi - lo))).

(** [Matrix<BoolVarArgs> matrix(cells, bs, bs)]: element access and slices. *)
Definition matrix (bs : Z) (c r : Z) : Var := cells_at (r * bs + c).

Definition slice (bs : Z) (fc tc fr tr : Z) : list Var :=
  flat_map (fun h => map (fun c => matrix bs c h) (range fc tc)) (range fr tr).

Definition getNeighbours (bs : Z) (col row : Z) : list Var :=
  [ matrix bs (col-1) (row-1); matrix bs col (row-1); matrix bs (col+1) (row-1);
    matrix bs (col-1) row; matrix bs (col+1) row;
    matrix bs (col-1) (row+1); matrix bs col (row+1); matrix bs (col+1) (row+1) ].

(** [pow(ceil(size/3.0),2)], the number of 3-by-3 blocks: the quotient
    [size/3.0] rounded up is [(size + 2) / 3] on integers. *)
Definition blocks (size : Z) : Z := ((size + 2) / 3) ^ 2.

(** The still-life constraints the inner loop posts for the cell at
    ([col],[row]): the two reified sums over its neighbours, their
    disjunction, and the two implications. *)
Definition still_life_constraints (bs col row : Z) : list Constraint :=
  let neighbours := getNeighbours bs col row in
  [ linear_reif neighbours IRT_EQ 2 (two_neighbours col row);
    linear_reif neighbours IRT_EQ 3 (three_neighbours col row);
    rel_bot (two_neighbours col row) BOT_OR (three_neighbours col row) (still_live col row);
    rel_bool (BE_imp (BE_var (matrix bs col row)) (BE_var (still_live col row)));
    rel_bool (BE_imp (BE_not (BE_var (matrix bs col row)))
                     (BE_not (BE_var (three_neighbours col row)))) ].

(** The body of the inner loop, on the constraints posted so far and
    [blockNo]: the three Boolean variables are created, the still-life
    constraints posted, and at the corner of a block its sum is tied to
    the next entry of [sliceOfMDP]. *)
Definition row_body (bs col : Z) (st : list Constraint * Z) (row : Z)
    : list Constraint * Z :=
  let (cs, blockNo) := st in
  let cs := cs ++
    [ dom (two_neighbours col row) 0 1;
      dom (three_neighbours col row) 0 1;
      dom (still_live col row) 0 1 ]
    ++ still_life_constraints bs col row in
  if (Z.rem col 3 =? 2) && (Z.rem row 3 =? 2) then
    (cs ++ [ linear_var (slice bs col (col+3) row (row+3)) IRT_EQ (sliceOfMDP_at blockNo) ],
     blockNo + 1)
  else (cs, blockNo).

(** The body of the outer loop: the inner loop, then the four limits on
    the cells next to the border. *)
Definition col_body (bs : Z) (st : list Constraint * Z) (col : Z)
    : list Constraint * Z :=
  let (cs, blockNo) := fold_left (row_body bs col) (range 2 (bs - 2)) st in
  (cs ++
    [ linear (slice bs 2 3 col (col+3)) IRT_LE 3;
      linear (slice bs col (col+3) 2 3) IRT_LE 3;
      linear (slice bs (bs-3) (bs-2) col (col+3)) IRT_LE 3;
      linear (slice bs col (col+3) (bs-3) (bs-2)) IRT_LE 3 ],
   blockNo).

(** The constructor, for the size option [size]: the variables with
    their domains, the sum of the cells, the empty border, the loops.
    The two calls of [branch] at its end post branchers, which constrain
    nothing. *)
Definition new_MaximumDensityStillLife (size : Z) : MaximumDensityStillLife :=
  let bs := size + 4 in
  let cells0 := map cells_at (range 0 ((size+4)*(size+4))) in
  let slices0 := map sliceOfMDP_at (range 0 (blocks size)) in
  let declared :=
    map (fun v => dom v 0 1) cells0 ++ map (fun v => dom v 0 6) slices0
    ++ [ dom noOfLives_var 0 (size ^ 2) ] in
  let border :=
    [ rel_lin (LE_sum cells0) IRT_EQ (LE_var noOfLives_var);
      linear (slice bs 0 2 0 bs) IRT_EQ 0;
      linear (slice bs (bs-2) bs 0 bs) IRT_EQ 0;
      linear (slice bs 2 (bs-2) 0 2) IRT_EQ 0;
      linear (slice bs 2 (bs-2) (bs-2) bs) IRT_EQ 0 ] in
  let (cs, _) := fold_left (col_body bs) (range 2 (bs - 2)) (declared ++ border, 0) in
  {| cells := cells0; sliceOfMDP := slices0; noOfLives := noOfLives_var;
     board_size := bs; posted := cs |}.

(** [constrain(s)], [s] being a solution given by its assignment. *)
Definition constrain (this : MaximumDensityStillLife) (mdsl : Assignment)
    : MaximumDensityStillLife :=
  {| cells := cells this; sliceOfMDP := sliceOfMDP this; noOfLives := noOfLives this;
     board_size := board_size this;
     posted := posted this ++
       [ rel_lin (LE_var (noOfLives this)) IRT_GR (LE_val (mdsl (noOfLives this)));
         rel_lin (LE_sum (sliceOfMDP this)) IRT_GR
                 (LE_val (sum_of mdsl (sliceOfMDP this))) ] |}.

(** A solution of a space: an assignment that satisfies all it posted. *)
Definition solution (sp : MaximumDensityStillLife) (a : Assignment) : bool :=
  forallb (holds a) (posted sp).

(** Modelled from the spec: the branch-and-bound engine ([BAB], part
    of Gecode and not of the sources).  It explores the assignments
    of [nodes] in order; once a solution [best] has been yielded,
    [constrain best] is invoked on every space explored afterwards;
    an assignment is yielded when it is a solution of the space so
    constrained. *)
Fixpoint bab (root : MaximumDensityStillLife) (best : option Assignment)
    (nodes : list Assignment) : list Assignment :=
  match nodes with
  | [] => []
  | a :: rest =>
      let sp := match best with
                | Some s => constrain root s
                | None => root
                end in
      if solution sp a then a :: bab root (Some a) rest
      else bab root best rest
  end.

(** The two objective values of a solution. *)
Definition lives (sp : MaximumDensityStillLife) (a : Assignment) : Z := a (noOfLives sp).
Definition density (sp : MaximumDensityStillLife) (a : Assignment) : Z :=
  sum_of a (sliceOfMDP sp).

(** The number of live neighbours of the cell at ([col],[row]). *)
Definition live_neighbours (sp : MaximumDensityStillLife) (a : Assignment) (col row : Z) : Z :=
  sum_of a (getNeighbours (board_size sp) col row).

Definition interior (sp : MaximumDensityStillLife) (col row : Z) : Prop :=
  2 <= col < board_size sp - 2 /\ 2 <= row < board_size sp - 2.

Definition all_zero : Assignment := fun _ => 0.

(** A sequence of solutions in which each one has more live cells and a
    larger sum of block densities than the one before it, [prev] being
    the solution before the first. *)
Fixpoint improving (sp : MaximumDensityStillLife) (prev : option Assignment)
    (ys : list Assignment) : Prop :=
  match ys with
  | [] => True
  | y :: ys' =>
      match prev with
      | Some s => lives sp s < lives sp y /\ density sp s < density sp y
      | None => True
      end
      /\ improving sp (Some y) ys'
  end.

(** An assignment of the board of size 4 in which the cell at (3,3) is
    dead and has the three live neighbours (2,2), (3,2) and (4,2). *)
Definition three_above : Assignment :=
  fun v =>
    match v with
    | cells_at i => if (i =? 18) || (i =? 19) || (i =? 20) then 1 else 0
    | _ => 0
    end.

(** The four limits the outer loop posts for [col], on three cells in a
    row along each side of the pattern. *)
Definition inner_border_limits (bs col : Z) : list Constraint :=
  [ linear (slice bs 2 3 col (col+3)) IRT_LE 3;
    linear (slice bs col (col+3) 2 3) IRT_LE 3;
    linear (slice bs (bs-3) (bs-2) col (col+3)) IRT_LE 3;
    linear (slice bs col (col+3) (bs-3) (bs-2)) IRT_LE 3 ].

(** The variables a constraint mentions. *)
Fixpoint vars_of_bool (e : BoolExpr) : list Var :=
  match e with
  | BE_var v => [v]
  | BE_not e' => vars_of_bool e'
  | BE_imp e1 e2 => vars_of_bool e1 ++ vars_of_bool e2
  end.

Definition vars_of_lin (l : LinExpr) : list Var :=
  match l with
  | LE_var v => [v]
  | LE_sum vs => vs
  | LE_val _ => []
  end.

Definition vars_of (c : Constraint) : list Var :=
  match c with
  | dom v _ _ => [v]
  | linear vs _ _ => vs
  | linear_var vs _ y => y :: vs
  | linear_reif vs _ _ b => b :: vs
  | rel_bot b0 _ b1 b2 => [b0; b1; b2]
  | rel_bool e => vars_of_bool e
  | rel_lin l _ r => vars_of_lin l ++ vars_of_lin r
  end.

(** A variable of the space: one the constructor created, with its domain. *)
Definition declared (sp : MaximumDensityStillLife) (v : Var) : Prop :=
  exists lo hi, In (dom v lo hi) (posted sp).

(** The test of the loop for the corner of a block. *)
Definition aligned (k : Z) : bool := Z.rem k 3 =? 2.

(** A variable within bounds: a cell of the board of side [bs], an entry
    of [sliceOfMDP] below [m], [noOfLives], or a Boolean variable of an
    interior cell. *)
Definition var_ok (bs m : Z) (v : Var) : Prop :=
  match v with
  | cells_at i => 0 <= i < bs * bs
  | sliceOfMDP_at i => 0 <= i < m
  | noOfLives_var => True
  | two_neighbours col row | three_neighbours col row | still_live col row =>
      2 <= col < bs - 2 /\ 2 <= row < bs - 2
  end.

Definition vars_ok (bs m : Z) (cs : list Constraint) : Prop :=
  forall c v, In c cs -> In v (vars_of c) -> var_ok bs m v.

(** A solution of the model of size 4 with live cells: the block, four
    live cells in a square at the corner of the pattern.  The Boolean
    variables, the block sums and the number of live cells are what the
    cells make them. *)
Definition block_cells : Assignment :=
  fun v =>
    match v with
    | cells_at i => if (i =? 18) || (i =? 19) || (i =? 26) || (i =? 27) then 1 else 0
    | _ => 0
    end.

Definition block_pattern : Assignment :=
  fun v =>
    match v with
    | cells_at _ => block_cells v
    | sliceOfMDP_at i => if i =? 0 then 4 else 0
    | noOfLives_var => 4
    | two_neighbours col row =>
        if sum_of block_cells (getNeighbours 8 col row) =? 2 then 1 else 0
    | three_neighbours col row =>
        if sum_of block_cells (getNeighbours 8 col row) =? 3 then 1 else 0
    | still_live col row =>
        if (sum_of block_cells (getNeighbours 8 col row) =? 2)
           || (sum_of block_cells (getNeighbours 8 col row) =? 3) then 1 else 0
    end.

End StillLife.

(** * Binary64 arithmetic

    What the proofs about the brancher need of IEEE 754 arithmetic, from
    the specification of the primitive floats. *)

Module Double.
Import Binary64.

(** ** Binary digits *)

Lemma digits2_pos_bounds (m : positive) :
  2 ^ (Zpos (digits2_pos m) - 1) <= Zpos m < 2 ^ Zpos (digits2_pos m).
Proof.
  induction m as [m IH | m IH |]; simpl digits2_pos.
  - rewrite Pos2Z.inj_succ.
    replace (Z.succ (Zpos (digits2_pos m)) - 1) with (Z.succ (Zpos (digits2_pos m) - 1)) by lia.
    rewrite !Z.pow_succ_r by lia. lia.
  - rewrite Pos2Z.inj_succ.
    replace (Z.succ (Zpos (digits2_pos m)) - 1) with (Z.succ (Zpos (digits2_pos m) - 1)) by lia.
    rewrite !Z.pow_succ_r by lia. lia.
  - simpl. lia.
Qed.

(** The number of digits, from bounds by powers of two. *)
Lemma digits2_pos_unique (m : positive) (d : Z) :
  2 ^ (d - 1) <= Zpos m < 2 ^ d -> 0 < d -> Zpos (digits2_pos m) = d.
Proof.
  intros [Hlo Hhi] Hd. destruct (digits2_pos_bounds m) as [Hlo' Hhi'].
  assert (d - 1 < Zpos (digits2_pos m)).
  { apply (Z.pow_lt_mono_r_iff 2); lia. }
  assert (Zpos (digits2_pos m) - 1 < d).
  { apply (Z.pow_lt_mono_r_iff 2); lia. }
  lia.
Qed.

(** ** Shifting right *)

Lemma iter_pos_nat {A : Type} (f : A -> A) (n : positive) (a : A) :
  iter_pos f n a = Nat.iter (Pos.to_nat n) f a.
Proof.
  revert a; induction n as [n IH | n IH |]; intros a; cbn [iter_pos].
  - rewrite !IH, Pos2Nat.inj_xI, <- Nat.iter_add.
    replace (S (2 * Pos.to_nat n)) with (S (Pos.to_nat n + Pos.to_nat n)) by lia.
    now rewrite Nat.iter_succ_r.
  - rewrite !IH, Pos2Nat.inj_xO, <- Nat.iter_add.
    now replace (2 * Pos.to_nat n)%nat with (Pos.to_nat n + Pos.to_nat n)%nat by lia.
  - reflexivity.
Qed.

Lemma shr_1_m (mrs : shr_record) :
  0 <= shr_m mrs -> shr_m (shr_1 mrs) = shr_m mrs / 2.
Proof.
  destruct mrs as [m r s]; simpl. intros Hm.
  destruct m as [| [q | q |] | q]; cbn [shr_m]; try lia; try reflexivity.
  - apply Z.div_unique with 1; lia.
  - apply Z.div_unique with 0; lia.
Qed.

Lemma shr_iter_m (k : nat) (mrs : shr_record) :
  0 <= shr_m mrs ->
  shr_m (Nat.iter k shr_1 mrs) = shr_m mrs / 2 ^ Z.of_nat k.
Proof.
  intros Hm. induction k as [| k IH].
  - simpl. now rewrite Z.div_1_r.
  - rewrite Nat2Z.inj_succ, Z.pow_succ_r by lia. simpl Nat.iter.
    rewrite shr_1_m.
    + rewrite IH, Z.div_div by lia. f_equal. lia.
    + rewrite IH. apply Z.div_pos; lia.
Qed.

(** Shifting out zeros only leaves an exact record. *)
Lemma shr_iter_exact (k : nat) (m : Z) :
  0 < m ->
  Nat.iter k shr_1 (Build_shr_record (m * 2 ^ Z.of_nat k) false false)
  = Build_shr_record m false false.
Proof.
  intros Hm. induction k as [| k IH].
  - simpl. now rewrite Z.mul_1_r.
  - rewrite Nat.iter_succ_r. rewrite Nat2Z.inj_succ, Z.pow_succ_r by lia.
    replace (m * (2 * 2 ^ Z.of_nat k)) with (2 * (m * 2 ^ Z.of_nat k)) by lia.
    assert (Hpos : 0 < m * 2 ^ Z.of_nat k) by (apply Z.mul_pos_pos; lia).
    destruct (m * 2 ^ Z.of_nat k) as [| q | q] eqn:Hq; try lia.
    simpl. exact IH.
Qed.

Lemma round_nearest_even_bounds (m : Z) (l : location) :
  m <= round_nearest_even m l <= m + 1.
Proof.
  destruct l as [| [ | | ]]; simpl; try lia. destruct (Z.even m); lia.
Qed.

(** ** Rounding in binary64 *)

Lemma fexp_eq (e : Z) : fexp prec emax e = Z.max (e - 53) (-1074).
Proof. reflexivity. Qed.

(** The first step of rounding: the mantissa is divided by a power of
    two, the exponent raised accordingly. *)
Lemma shr_fexp_m (m e : Z) :
  0 <= m ->
  shr_m (fst (shr_fexp prec emax m e loc_Exact))
    = m / 2 ^ Z.max 0 (fexp prec emax (Zdigits2 m + e) - e)
  /\ snd (shr_fexp prec emax m e loc_Exact)
    = e + Z.max 0 (fexp prec emax (Zdigits2 m + e) - e).
Proof.
  intros Hm. unfold shr_fexp, shr.
  destruct (fexp prec emax (Zdigits2 m + e) - e) as [| n | n] eqn:Hn; cbn [fst snd].
  - cbn [shr_record_of_loc shr_m]. rewrite Z.max_l, Z.div_1_r by lia. lia.
  - rewrite iter_pos_nat, shr_iter_m by (cbn; lia).
    cbn [shr_record_of_loc shr_m]. rewrite Z.max_r, positive_nat_Z by lia. lia.
  - cbn [shr_record_of_loc shr_m]. rewrite Z.max_l, Z.div_1_r by lia. lia.
Qed.

(** When only zeros are shifted out, the location stays exact. *)
Lemma shr_fexp_exact (m e n : Z) :
  0 < m -> 0 <= n ->
  fexp prec emax (Zdigits2 (m * 2 ^ n) + e) - e = n ->
  fst (shr_fexp prec emax (m * 2 ^ n) e loc_Exact) = Build_shr_record m false false.
Proof.
  intros Hm Hn Hshift. unfold shr_fexp, shr. rewrite Hshift.
  destruct n as [| n | n]; cbn [fst shr_record_of_loc]; try lia.
  - now rewrite Z.mul_1_r.
  - rewrite iter_pos_nat. rewrite <- (positive_nat_Z n) at 1.
    now apply shr_iter_exact.
Qed.

(** The last step of rounding, for a mantissa of at most 53 bits, or
    exactly [2^53] after a carry. *)

Lemma finish_zero (s : bool) (e1 : Z) : -1074 <= e1 -> finish s 0 e1 = S754_zero s.
Proof.
  intros He. unfold finish, shr_fexp, shr. cbn [Zdigits2]. rewrite fexp_eq.
  destruct (Z.max (0 + e1 - 53) (-1074) - e1) eqn:Hn; try lia; reflexivity.
Qed.

Lemma finish_small (s : bool) (m : positive) (e1 : Z) :
  Zpos m < 2 ^ 53 -> -1074 <= e1 <= 971 ->
  finish s (Zpos m) e1 = S754_finite s m e1.
Proof.
  intros Hm He. unfold finish, shr_fexp, shr. cbn [Zdigits2]. rewrite fexp_eq.
  assert (Hd : Zpos (digits2_pos m) <= 53).
  { destruct (digits2_pos_bounds m) as [Hlo _].
    assert (Zpos (digits2_pos m) - 1 < 53) by (apply (Z.pow_lt_mono_r_iff 2); lia). lia. }
  destruct (Z.max (Zpos (digits2_pos m) + e1 - 53) (-1074) - e1) eqn:Hn; try lia;
    cbn [shr_record_of_loc shr_m];
    (destruct (Z.leb_spec e1 (emax - prec)) as [_ | Hgt];
     [reflexivity | unfold emax, prec in Hgt; lia]).
Qed.

Lemma finish_carry (s : bool) (e1 : Z) :
  -1074 <= e1 <= 970 ->
  finish s (2 ^ 53) e1 = S754_finite s 4503599627370496 (e1 + 1).
Proof.
  intros He. unfold finish, shr_fexp, shr.
  change (2 ^ 53) with 9007199254740992.
  change (Zdigits2 9007199254740992) with 54. rewrite fexp_eq.
  replace (Z.max (54 + e1 - 53) (-1074) - e1) with 1 by lia.
  cbn [iter_pos shr_record_of_loc shr_1 shr_m].
  destruct (Z.leb_spec (e1 + 1) (emax - prec)) as [_ | Hgt];
    [reflexivity | unfold emax, prec in Hgt; lia].
Qed.

Lemma binary_round_aux_finish (s : bool) (m e : Z) :
  binary_round_aux prec emax s m e loc_Exact
  = finish s (round_nearest_even (shr_m (fst (shr_fexp prec emax m e loc_Exact)))
                (loc_of_shr_record (fst (shr_fexp prec emax m e loc_Exact))))
             (snd (shr_fexp prec emax m e loc_Exact)).
Proof.
  unfold binary_round_aux, finish.
  destruct (shr_fexp prec emax m e loc_Exact) as [mrs e1]. reflexivity.
Qed.

(** ** Comparison and multiplication *)

Lemma SFleb_finite (m1 m2 : positive) (e1 e2 : Z) :
  e1 < e2 \/ (e1 = e2 /\ Zpos m1 <= Zpos m2) ->
  SFleb (S754_finite false m1 e1) (S754_finite false m2 e2) = true.
Proof.
  unfold SFleb, SFcompare. intros [Hlt | [-> Hle]].
  - apply Z.compare_lt_iff in Hlt. now rewrite Hlt.
  - rewrite Z.compare_refl. change (Pos.compare_cont Eq m1 m2) with (Pos.compare m1 m2).
    destruct (Pos.compare_spec m1 m2); auto; lia.
Qed.

(** The product of a binary64 number that is at most 1 (mantissa [mp],
    exponent [ep]) and a normal one (mantissa [mw], exponent [ew]) is,
    once rounded, at most the latter. *)
Lemma round_mul_le (mp mw : positive) (ep ew : Z) :
  -1074 <= ep <= -52 -> Zpos mp <= 2 ^ (- ep) ->
  2 ^ 52 <= Zpos mw < 2 ^ 53 -> -1074 <= ew <= 970 ->
  SFleb (binary_round_aux prec emax false (Zpos (mp * mw)) (ep + ew) loc_Exact)
        (S754_finite false mw ew) = true.
Proof.
  intros Hep Hmp Hmw Hew.
  rewrite binary_round_aux_finish.
  destruct (shr_fexp_m (Zpos (mp * mw)) (ep + ew) ltac:(lia)) as [Hm' He'].
  cbn [Zdigits2] in Hm', He'. rewrite fexp_eq in Hm', He'.
  pose proof (digits2_pos_bounds (mp * mw)) as [HDlo HDhi].
  set (D := Zpos (digits2_pos (mp * mw))) in *.
  rewrite Pos2Z.inj_mul in *.
  set (M := Zpos mp * Zpos mw) in *.
  assert (Hpow_ep : 0 < 2 ^ (- ep)) by (apply Z.pow_pos_nonneg; lia).
  assert (HMle : M <= 2 ^ (- ep) * Zpos mw) by (unfold M; nia).
  assert (HMlt : M < 2 ^ (53 - ep)).
  { replace (53 - ep) with (- ep + 53) by lia. rewrite Z.pow_add_r by lia. nia. }
  assert (HMge : 2 ^ 52 <= M) by (unfold M; nia).
  assert (HD53 : 53 <= D).
  { assert (52 < D) by (apply (Z.pow_lt_mono_r_iff 2); lia). lia. }
  assert (HDep : D <= 53 - ep).
  { assert (D - 1 < 53 - ep) by (apply (Z.pow_lt_mono_r_iff 2); lia). lia. }
  set (n := Z.max 0 (Z.max (D + (ep + ew) - 53) (-1074) - (ep + ew))) in *.
  assert (Hn : 0 <= n) by (unfold n; lia).
  assert (Hpow_n : 0 < 2 ^ n) by (apply Z.pow_pos_nonneg; lia).
  set (mrs := fst (shr_fexp prec emax M (ep + ew) loc_Exact)) in *.
  set (e1 := snd (shr_fexp prec emax M (ep + ew) loc_Exact)) in *.
  assert (He1 : -1074 <= e1 <= ew) by (unfold n in He'; lia).
  assert (Hm53 : 0 <= shr_m mrs < 2 ^ 53).
  { rewrite Hm'. split; [apply Z.div_pos; lia |].
    apply Z.div_lt_upper_bound; [lia |].
    assert (2 ^ D <= 2 ^ (n + 53)) by (apply Z.pow_le_mono_r; unfold n; lia).
    rewrite Z.pow_add_r in H by lia. lia. }
  pose proof (round_nearest_even_bounds (shr_m mrs) (loc_of_shr_record mrs)) as Hrne.
  set (m1 := round_nearest_even (shr_m mrs) (loc_of_shr_record mrs)) in *.
  (* When the exponent is that of [w], the mantissa is at most that of [w]. *)
  assert (Hsame : e1 = ew -> m1 <= Zpos mw).
  { intros Heq. assert (Hnep : n = - ep) by lia.
    assert (Hle : shr_m mrs <= Zpos mw).
    { rewrite Hm'. apply Z.div_le_upper_bound; [lia |]. rewrite Hnep. lia. }
    destruct (Z.eq_dec (shr_m mrs) (Zpos mw)) as [Heqm | Hneq]; [| lia].
    assert (HM : M = Zpos mw * 2 ^ n).
    { rewrite Hm' in Heqm.
      pose proof (Z.mul_div_le M (2 ^ n) Hpow_n) as Hdiv.
      rewrite Heqm in Hdiv. rewrite Hnep in *. lia. }
    assert (Hmrs : mrs = Build_shr_record (Zpos mw) false false).
    { unfold mrs. rewrite HM. apply shr_fexp_exact; try lia.
      rewrite <- HM. unfold M. rewrite <- Pos2Z.inj_mul. cbn [Zdigits2].
      fold D. rewrite fexp_eq. unfold n in Hnep. lia. }
    unfold m1. rewrite Hmrs. simpl. lia. }
  destruct (Z.eq_dec m1 0) as [Hz | Hnz].
  - rewrite Hz, finish_zero by lia. reflexivity.
  - destruct (Z.eq_dec m1 (2 ^ 53)) as [Hc | Hnc].
    + rewrite Hc, finish_carry by lia. apply SFleb_finite.
      destruct (Z.eq_dec e1 ew) as [Heq | Hne]; [specialize (Hsame Heq); lia |].
      change (Zpos 4503599627370496) with (2 ^ 52). lia.
    + destruct m1 as [| q | q] eqn:Hq; try lia.
      rewrite finish_small by lia. apply SFleb_finite.
      destruct (Z.eq_dec e1 ew) as [Heq | Hne]; [specialize (Hsame Heq) |]; lia.
Qed.

Lemma compare_cont_Eq (a b : positive) : Pos.compare_cont Eq a b = Pos.compare a b.
Proof. reflexivity. Qed.

Lemma SFltb_not_SFleb (a b : spec_float) : SFltb a b = true -> SFleb b a = false.
Proof.
  unfold SFltb, SFleb.
  destruct a as [sa | sa | | sa ma ea], b as [sb | sb | | sb mb eb]; simpl;
    try destruct sa; try destruct sb; simpl; try congruence.
  - rewrite (Z.compare_antisym ea eb). destruct (ea ?= eb) eqn:He; simpl; try congruence.
    assert (Hanti : Pos.compare_cont Eq mb ma = CompOpp (Pos.compare_cont Eq ma mb))
      by (symmetry; apply (Pos.compare_cont_antisym ma mb Eq)).
    rewrite Hanti. destruct (Pos.compare_cont Eq ma mb); simpl; congruence.
  - rewrite (Z.compare_antisym ea eb). destruct (ea ?= eb) eqn:He; simpl; try congruence.
    assert (Hanti : Pos.compare_cont Eq mb ma = CompOpp (Pos.compare_cont Eq ma mb))
      by (symmetry; apply (Pos.compare_cont_antisym ma mb Eq)).
    rewrite Hanti. destruct (Pos.compare_cont Eq ma mb); simpl; congruence.
Qed.

(** [a < b] excludes [a >= b]. *)
Lemma ltb_not_leb (a b : float) : PrimFloat.ltb a b = true -> PrimFloat.leb b a = false.
Proof. rewrite ltb_spec, leb_spec. apply SFltb_not_SFleb. Qed.

(** ** Integers as binary64 numbers *)

Lemma iter_xO_value (m k : positive) : Zpos (Pos.iter xO m k) = Zpos m * 2 ^ Zpos k.
Proof.
  induction k as [| k IH] using Pos.peano_ind.
  - simpl. lia.
  - rewrite Pos.iter_succ, Pos2Z.inj_xO, IH, Pos2Z.inj_succ, Z.pow_succ_r by lia. lia.
Qed.

Lemma binary_round_aux_normal (s : bool) (m : positive) (e : Z) :
  2 ^ 52 <= Zpos m < 2 ^ 53 -> -1074 <= e <= 971 ->
  binary_round_aux prec emax s (Zpos m) e loc_Exact = S754_finite s m e.
Proof.
  intros Hm He. rewrite binary_round_aux_finish.
  assert (Hd : Zpos (digits2_pos m) = 53) by (apply digits2_pos_unique; lia).
  unfold shr_fexp, shr. cbn [Zdigits2]. rewrite Hd, fexp_eq.
  replace (Z.max (53 + e - 53) (-1074) - e) with 0 by lia.
  cbn [fst snd shr_record_of_loc shr_m loc_of_shr_record round_nearest_even].
  apply finish_small; lia.
Qed.

(** A positive [int] is a normal binary64 number. *)
Lemma Prim2SF_of_pos (z : positive) :
  Zpos z < 2 ^ 31 ->
  exists mw ew,
    Prim2SF (of_uint63 (Uint63.of_Z (Zpos z))) = S754_finite false mw ew
    /\ 2 ^ 52 <= Zpos mw < 2 ^ 53 /\ -1074 <= ew <= 970.
Proof.
  intros Hz. rewrite of_uint63_spec, Uint63.of_Z_spec.
  rewrite Z.mod_small by (change Uint63.wB with (2 ^ 63); split; [lia |];
    apply Z.lt_trans with (2 ^ 31); [exact Hz | reflexivity]).
  cbn [binary_normalize]. unfold binary_round, shl_align.
  pose proof (digits2_pos_bounds z) as [Hlo Hhi].
  set (d := Zpos (digits2_pos z)) in *.
  assert (Hd : 1 <= d <= 31).
  { split; [unfold d; lia |].
    assert (d - 1 < 31) by (apply (Z.pow_lt_mono_r_iff 2); lia). lia. }
  rewrite fexp_eq.
  destruct (Z.max (d + 0 - 53) (-1074) - 0) as [| k | k] eqn:Hk; try lia.
  assert (Hmz : Zpos (Pos.iter xO z k) = Zpos z * 2 ^ (53 - d)).
  { rewrite iter_xO_value. f_equal. f_equal. lia. }
  assert (Hrange : 2 ^ 52 <= Zpos (Pos.iter xO z k) < 2 ^ 53).
  { rewrite Hmz.
    assert (E52 : 2 ^ 52 = 2 ^ (d - 1) * 2 ^ (53 - d))
      by (rewrite <- Z.pow_add_r by lia; f_equal; lia).
    assert (E53 : 2 ^ 53 = 2 ^ d * 2 ^ (53 - d))
      by (rewrite <- Z.pow_add_r by lia; f_equal; lia).
    assert (0 < 2 ^ (53 - d)) by (apply Z.pow_pos_nonneg; lia).
    rewrite E52, E53. nia. }
  exists (Pos.iter xO z k), (Z.max (d + 0 - 53) (-1074)).
  split; [| split; [exact Hrange | lia]].
  apply binary_round_aux_normal; [exact Hrange | lia].
Qed.

(** A binary64 number [p] with [0 < p <= 1]: its sign, mantissa and exponent. *)
Lemma Prim2SF_unit (p : float) :
  PrimFloat.ltb 0 p = true -> PrimFloat.leb p 1 = true ->
  exists mp ep,
    Prim2SF p = S754_finite false mp ep
    /\ -1074 <= ep <= -52 /\ Zpos mp <= 2 ^ (- ep).
Proof.
  rewrite ltb_spec, leb_spec. pose proof (Prim2SF_valid p) as Hvalid.
  change (Prim2SF 0) with (S754_zero false).
  change (Prim2SF 1) with (S754_finite false 4503599627370496 (-52)).
  destruct (Prim2SF p) as [s | s | | s mp ep]; try discriminate.
  - destruct s; discriminate.
  - destruct s; [discriminate |]. intros _ Hle.
    unfold valid_binary, bounded, canonical_mantissa in Hvalid.
    apply andb_true_iff in Hvalid as [Hcanon _]. apply Z.eqb_eq in Hcanon.
    rewrite fexp_eq in Hcanon.
    pose proof (digits2_pos_bounds mp) as [_ Hhi].
    exists mp, ep. split; [reflexivity |].
    unfold SFleb, SFcompare in Hle.
    destruct (Z.compare_spec ep (-52)) as [-> | Hlt | Hgt]; try discriminate.
    + split; [lia |]. rewrite compare_cont_Eq in Hle.
      change (2 ^ (- -52)) with (Zpos 4503599627370496).
      apply Pos2Z.pos_le_pos, Pos.compare_le_iff.
      intros Hgt. rewrite Hgt in Hle. discriminate.
    + split; [lia |].
      assert (2 ^ Zpos (digits2_pos mp) <= 2 ^ (- ep)) by (apply Z.pow_le_mono_r; lia).
      lia.
Qed.

(** A fraction [p] of a width [wi] is at most the width:
    [p * wi <= wi] as computed in binary64. *)
Lemma mul_unit_le (p : float) (wi : Z) :
  PrimFloat.ltb 0 p = true -> PrimFloat.leb p 1 = true ->
  0 <= wi < 2 ^ 31 ->
  PrimFloat.leb (PrimFloat.mul p (of_uint63 (Uint63.of_Z wi))) (of_uint63 (Uint63.of_Z wi)) = true.
Proof.
  intros Hpos Hle Hwi.
  destruct (Prim2SF_unit p Hpos Hle) as (mp & ep & Hp & Hep & Hmp).
  rewrite leb_spec, mul_spec, Hp. unfold SF64mul.
  destruct wi as [| z | z]; try lia.
  - change (Prim2SF (of_uint63 (Uint63.of_Z 0))) with (S754_zero false). reflexivity.
  - destruct (Prim2SF_of_pos z ltac:(lia)) as (mw & ew & -> & Hmw & Hew).
    cbn [SFmul xorb]. now apply round_mul_le.
Qed.
End Double.

(** * Properties of the interval brancher *)

Module IntervalFacts.
Import Gecode IntervalBrancher.

(** ** The scan of [status] *)

Lemma nth_error_skipn {A : Type} (l : list A) (s n : nat) :
  nth_error (skipn s l) n = nth_error l (s + n).
Proof.
  revert l; induction s as [| s IH]; intros [| a l]; simpl; auto.
  now destruct n.
Qed.

(** What [status_scan] finds is the first accepted pair, counted from [i]. *)
Lemma status_scan_some (p0 : float) (xs : list IntView) :
  forall (ws : list Z) (i j : nat),
    status_scan p0 xs ws i = Some j ->
    exists n v wi,
      j = (i + n)%nat /\ nth_error xs n = Some v /\ nth_error ws n = Some wi
      /\ selects p0 v wi = true
      /\ forall m v' wi', (m < n)%nat ->
           nth_error xs m = Some v' -> nth_error ws m = Some wi' ->
           selects p0 v' wi' = false.
Proof.
  induction xs as [| v xs IH]; intros [| wi ws] i j; simpl; try discriminate.
  destruct (selects p0 v wi) eqn:Hsel.
  - intros [= <-]. exists 0%nat, v, wi.
    repeat split; auto with arith. intros m v' wi' Hm; lia.
  - intros Hscan. destruct (IH _ _ _ Hscan) as (n & v1 & w1 & -> & Hx & Hw & Hs & Hfirst).
    exists (S n), v1, w1. repeat split; auto; try lia.
    intros [| m] v' wi' Hm; simpl.
    + now intros [= <-] [= <-].
    + apply Hfirst; lia.
Qed.

Lemma status_scan_none (p0 : float) (xs : list IntView) :
  forall (ws : list Z) (i : nat),
    length ws = length xs ->
    status_scan p0 xs ws i = None ->
    forall n v wi, nth_error xs n = Some v -> nth_error ws n = Some wi ->
                   selects p0 v wi = false.
Proof.
  induction xs as [| v xs IH]; intros [| wi ws] i Hlen; simpl in *; try discriminate.
  - intros _ [| n]; discriminate.
  - destruct (selects p0 v wi) eqn:Hsel; try discriminate.
    intros Hscan [| n] v' wi'; simpl.
    + now intros [= <-] [= <-].
    + eapply IH; eauto.
Qed.

Lemma selects_selected_at (b : IntervalBrancher) (i : nat) :
  selected_at b i <->
  exists v wi, nth_error (x b) i = Some v /\ nth_error (w b) i = Some wi
               /\ selects (p b) v wi = true.
Proof.
  unfold selected_at, selects; split; intros (v & wi & Hx & Hw & H);
    exists v, wi; repeat split; auto.
  - destruct H as [-> ->]; reflexivity.
  - apply andb_true_iff in H as [_ H]. now apply negb_true_iff in H.
  - now apply andb_true_iff in H as [H _].
Qed.

(** [status b] answers true exactly when the scan finds an index, and
    that index is the new cache. *)
Lemma status_true_inv (b : IntervalBrancher) :
  fst (status b) = true ->
  exists j, status_scan (p b) (skipn (start b) (x b)) (skipn (start b) (w b)) (start b) = Some j
            /\ snd (status b) = set_start b j.
Proof.
  unfold status.
  destruct (status_scan _ _ _ _) as [j |]; simpl; try discriminate.
  intros _; now exists j.
Qed.

Lemma status_selected (b : IntervalBrancher) :
  fst (status b) = true ->
  (start b <= start (snd (status b)))%nat
  /\ selected_at b (start (snd (status b)))
  /\ forall j, (start b <= j < start (snd (status b)))%nat -> ~ selected_at b j.
Proof.
  intros Htrue. destruct (status_true_inv b Htrue) as (j & Hscan & ->). simpl.
  destruct (status_scan_some _ _ _ _ _ Hscan) as (n & v & wi & -> & Hx & Hw & Hs & Hfirst).
  rewrite nth_error_skipn in Hx; rewrite nth_error_skipn in Hw.
  split; [lia | split].
  - apply selects_selected_at. now exists v, wi.
  - intros j [Hlo Hhi] Hsel. apply selects_selected_at in Hsel as (v' & wi' & Hx' & Hw' & Hs').
    assert (Hj : j = (start b + (j - start b))%nat) by lia.
    rewrite Hj in Hx', Hw'.
    rewrite <- nth_error_skipn in Hx'; rewrite <- nth_error_skipn in Hw'.
    rewrite (Hfirst (j - start b)%nat v' wi') in Hs'; [discriminate | lia | auto | auto].
Qed.

Lemma status_false_none (b : IntervalBrancher) :
  wf b -> fst (status b) = false ->
  forall i, (start b <= i)%nat -> ~ selected_at b i.
Proof.
  intros (Hlen & _) Hfalse i Hi Hsel.
  apply selects_selected_at in Hsel as (v & wi & Hx & Hw & Hs).
  unfold status in Hfalse.
  destruct (status_scan _ _ _ _) eqn:Hscan; simpl in Hfalse; try discriminate.
  assert (Hj : i = (start b + (i - start b))%nat) by lia.
  rewrite Hj in Hx, Hw.
  rewrite <- nth_error_skipn in Hx; rewrite <- nth_error_skipn in Hw.
  assert (Hlen' : length (skipn (start b) (w b)) = length (skipn (start b) (x b)))
    by (rewrite !length_skipn; lia).
  rewrite (status_scan_none _ _ _ _ Hlen' Hscan _ _ _ Hx Hw) in Hs.
  discriminate.
Qed.

(** C3: [status] answers true exactly when some index from [start] on
    holds an unassigned variable whose slack [(min + w) - max] is below
    [p*w]; the cache then moves to the first such index, nothing else
    changes, and [choice] describes the variable at that index, which is
    the first such variable of all when none lies before the old cache. *)
Theorem status_first_selected (b : IntervalBrancher) :
  wf b ->
  (fst (status b) = true <-> exists i, (start b <= i)%nat /\ selected_at b i)
  /\ (fst (status b) = true ->
      (start b <= start (snd (status b)))%nat
      /\ selected_at b (start (snd (status b)))
      /\ (forall j, (start b <= j < start (snd (status b)))%nat -> ~ selected_at b j)
      /\ ((forall j, (j < start b)%nat -> ~ selected_at b j) ->
          forall j, (j < start (snd (status b)))%nat -> ~ selected_at b j)
      /\ snd (status b) = set_start b (start (snd (status b)))
      /\ forall d, choice (snd (status b)) = Some d ->
                   pos d = Z.of_nat (start (snd (status b)))).
Proof.
  intros Hwf. split; [split |].
  - intros Htrue. exists (start (snd (status b))).
    destruct (status_selected b Htrue) as (Hle & Hsel & _). auto.
  - intros (i & Hi & Hsel). destruct (fst (status b)) eqn:Hst; auto.
    now destruct (status_false_none b Hwf Hst i Hi).
  - intros Htrue. destruct (status_selected b Htrue) as (Hle & Hsel & Hfirst).
    split; [exact Hle | split; [exact Hsel | split; [exact Hfirst | split; [| split]]]].
    + intros Hbefore j Hj. destruct (Nat.lt_ge_cases j (start b)) as [Hlt | Hge].
      * now apply Hbefore.
      * apply Hfirst. lia.
    + destruct (status_true_inv b Htrue) as (j & _ & ->). reflexivity.
    + intros d. unfold choice.
      destruct (nth_error (x (snd (status b))) _); try discriminate.
      destruct (nth_error (w (snd (status b))) _); try discriminate.
      destruct (choice_loop _ _ _ _ _); try discriminate.
      now intros [= <-].
Qed.

(** ** The loop of [choice] *)

(** On values in increasing order, the loop ends with the largest
    accepted value, or with what it started from when none is accepted. *)
Lemma choice_loop_sorted (p0 : float) (v : IntView) (wi : Z) (ks : list Z) :
  StronglySorted Z.lt ks ->
  forall sp : option Z,
    match choice_loop p0 v wi ks sp with
    | Some k =>
        (In k ks /\ slack_ge p0 v wi k = true
         /\ forall k', In k' ks -> slack_ge p0 v wi k' = true -> k' <= k)
        \/ (sp = Some k /\ forall k', In k' ks -> slack_ge p0 v wi k' = false)
    | None => sp = None /\ forall k', In k' ks -> slack_ge p0 v wi k' = false
    end.
Proof.
  induction 1 as [| k ks Hsorted IH Hlt]; intros sp.
  - simpl. destruct sp; [right |]; split; auto; intros ? [].
  - rewrite Forall_forall in Hlt.
    specialize (IH (if slack_ge p0 v wi k then Some k else sp)).
    change (choice_loop p0 v wi (k :: ks) sp)
      with (choice_loop p0 v wi ks (if slack_ge p0 v wi k then Some k else sp)).
    destruct (choice_loop p0 v wi ks _) as [k1 |].
    + destruct IH as [(Hin & Hge & Hmax) | (Hsp & Hnone)].
      * left. split; [now right | split; [exact Hge |]].
        intros k' [<- | Hin'] Hge'; [specialize (Hlt _ Hin); lia | now apply Hmax].
      * destruct (slack_ge p0 v wi k) eqn:Hk.
        -- injection Hsp as <-. left. split; [now left | split; [exact Hk |]].
           intros k' [<- | Hin'] Hge'; [lia |].
           rewrite (Hnone _ Hin') in Hge'; discriminate.
        -- right. split; [exact Hsp |]. intros k' [<- | Hin']; auto.
    + destruct IH as (Hsp & Hnone).
      destruct (slack_ge p0 v wi k) eqn:Hk; [discriminate |].
      split; [exact Hsp |]. intros k' [<- | Hin']; auto.
Qed.

Lemma wf_view (b : IntervalBrancher) (i : nat) (v : IntView) :
  wf b -> nth_error (x b) i = Some v -> dom_ok v.
Proof.
  intros (_ & _ & Hdoms) Hx. rewrite Forall_forall in Hdoms.
  eapply Hdoms, nth_error_In, Hx.
Qed.

Lemma wf_set_start (b : IntervalBrancher) (i : nat) : wf b -> wf (set_start b i).
Proof. intros H; exact H. Qed.

Lemma wf_status (b : IntervalBrancher) : wf b -> wf (snd (status b)).
Proof.
  intros Hwf. unfold status. destruct (status_scan _ _ _ _); simpl; auto.
Qed.

(** The split point of [choice], on a sorted domain. *)
Lemma choice_split_point (b : IntervalBrancher) (v : IntView) (wi : Z) :
  wf b ->
  nth_error (x b) (start b) = Some v -> nth_error (w b) (start b) = Some wi ->
  forall k, largest_slack_value (p b) v wi k <->
            exists d, choice b = Some d /\ split_point d = k.
Proof.
  intros Hwf Hx Hw k. unfold choice. rewrite Hx, Hw.
  destruct (wf_view _ _ _ Hwf Hx) as (_ & Hsorted & _).
  pose proof (choice_loop_sorted (p b) v wi (values v) Hsorted None) as Hloop.
  unfold largest_slack_value. fold (slack_ge (p b) v wi k).
  destruct (choice_loop _ _ _ _ _) as [k1 |].
  - destruct Hloop as [(Hin & Hge & Hmax) | (Hsp & _)]; [| discriminate].
    split.
    + intros (Hin' & Hge' & Hmax').
      exists (new_Description b 2 (Z.of_nat (start b)) k1). split; auto. simpl.
      specialize (Hmax _ Hin' Hge'). specialize (Hmax' _ Hin Hge). lia.
    + intros (d & [= <-] & <-). simpl. auto.
  - destruct Hloop as (_ & Hnone). split.
    + intros (Hin & Hge & _). specialize (Hnone _ Hin).
      unfold slack_ge in Hnone, Hge. rewrite Hnone in Hge; discriminate.
    + intros (d & Hd & _); discriminate.
Qed.

(** When some value of the domain passes the test, the loop of [choice]
    assigns [split_point]: [choice] returns a description for the cached
    position whose split point is the largest value passing the test. *)
Lemma choice_passing (b : IntervalBrancher) (v : IntView) (wi k0 : Z) :
  wf b ->
  nth_error (x b) (start b) = Some v -> nth_error (w b) (start b) = Some wi ->
  In k0 (values v) ->
  Int.ge_double (Int.sub (Int.add (min v) wi) k0)
                (PrimFloat.mul (p b) (Int.to_double wi)) = true ->
  exists d, choice b = Some d
            /\ pos d = Z.of_nat (start b)
            /\ largest_slack_value (p b) v wi (split_point d).
Proof.
  intros Hwf Hx Hw Hin Hge. unfold choice. rewrite Hx, Hw.
  destruct (wf_view _ _ _ Hwf Hx) as (_ & Hsorted & _).
  pose proof (choice_loop_sorted (p b) v wi (values v) Hsorted None) as Hloop.
  destruct (choice_loop (p b) v wi (values v) None) as [k |].
  - destruct Hloop as [Hk | (Hsp & _)]; [| discriminate].
    exists (new_Description b 2 (Z.of_nat (start b)) k).
    split; [reflexivity | split; [reflexivity | exact Hk]].
  - destruct Hloop as (_ & Hnone). specialize (Hnone _ Hin).
    unfold slack_ge in Hnone. rewrite Hnone in Hge. discriminate.
Qed.

(** C1, for the calls on which the loop of [choice] assigns
    [split_point]: after [status] has answered true with the cached
    position [start], if some value [k0] of the domain of [x[start]] has
    [(x[start].min() + w[start]) - k0 >= p*w[start]], then [choice]
    returns a description for [start] whose split point is the largest
    value [k] of that domain with
    [(x[start].min() + w[start]) - k >= p*w[start]], and no other value
    is that largest one. *)
Theorem choice_split_point_largest
  (b0 b : IntervalBrancher) (v : IntView) (wi k0 : Z) :
  wf b0 -> status b0 = (true, b) ->
  nth_error (x b) (start b) = Some v -> nth_error (w b) (start b) = Some wi ->
  In k0 (values v) ->
  Int.ge_double (Int.sub (Int.add (min v) wi) k0)
                (PrimFloat.mul (p b) (Int.to_double wi)) = true ->
  exists d, choice b = Some d
            /\ pos d = Z.of_nat (start b)
            /\ largest_slack_value (p b) v wi (split_point d)
            /\ forall k, largest_slack_value (p b) v wi k -> k = split_point d.
Proof.
  intros Hwf Hstatus Hx Hw Hin Hge.
  assert (Hwfb : wf b)
    by (pose proof (wf_status b0 Hwf) as H; rewrite Hstatus in H; exact H).
  destruct (choice_passing b v wi k0 Hwfb Hx Hw Hin Hge) as (d & Hd & Hpos & Hk).
  exists d. split; [exact Hd | split; [exact Hpos | split; [exact Hk |]]].
  intros k (Hink & Hgek & Hmaxk). destruct Hk as (Hind & Hged & Hmaxd).
  specialize (Hmaxk _ Hind Hged). specialize (Hmaxd _ Hink Hgek). lia.
Qed.

(** ** [commit] *)

Lemma copy_same (b : IntervalBrancher) : copy b = b.
Proof. destruct b; unfold copy; simpl. now rewrite map_id. Qed.

Lemma nth_error_set_view (b : IntervalBrancher) (i : nat) (v v' : IntView) :
  nth_error (x b) i = Some v -> nth_error (x (set_view b i v')) i = Some v'.
Proof.
  intros Hx. simpl.
  assert (Hi : (i < length (x b))%nat) by (apply nth_error_Some; congruence).
  rewrite nth_error_app2; rewrite length_firstn, Nat.min_l by lia; [| lia].
  now rewrite Nat.sub_diag.
Qed.

Lemma me_failed_shrunk (v v' : IntView) : me_failed (shrunk v v') = false.
Proof. unfold shrunk. now destruct (_ =? _)%nat, (assigned v'). Qed.

(** The values alternative 0 leaves: those that are at most the split point. *)
Lemma commit_lq_values (b : IntervalBrancher) (d : Description) (v : IntView) :
  0 <= pos d -> nth_error (x b) (Z.to_nat (pos d)) = Some v ->
  left_values (commit b d 0) (Z.to_nat (pos d)) = filter (fun u => u <=? split_point d) v.
Proof.
  intros Hpos Hx. unfold commit.
  destruct (pos d <? 0) eqn:Hneg; [lia |]. rewrite Hx. simpl.
  unfold lq. destruct (filter _ v) as [| u0 v'] eqn:Hf; simpl; [reflexivity |].
  rewrite me_failed_shrunk. simpl.
  rewrite nth_error_app2; rewrite length_firstn, Nat.min_l;
    try (apply Nat.lt_le_incl, nth_error_Some; congruence); [| lia].
  now rewrite Nat.sub_diag.
Qed.

(** The values any other alternative leaves: those above the split point. *)
Lemma commit_gr_values (b : IntervalBrancher) (d : Description) (v : IntView) (a : Z) :
  a <> 0 -> 0 <= pos d -> nth_error (x b) (Z.to_nat (pos d)) = Some v ->
  left_values (commit b d a) (Z.to_nat (pos d)) = filter (fun u => split_point d <? u) v.
Proof.
  intros Ha Hpos Hx. unfold commit.
  destruct (pos d <? 0) eqn:Hneg; [lia |]. rewrite Hx.
  destruct (a =? 0) eqn:Ha0; [lia |].
  unfold gr. destruct (filter _ v) as [| u0 v'] eqn:Hf; simpl; [reflexivity |].
  rewrite me_failed_shrunk. simpl.
  rewrite nth_error_app2; rewrite length_firstn, Nat.min_l;
    try (apply Nat.lt_le_incl, nth_error_Some; congruence); [| lia].
  now rewrite Nat.sub_diag.
Qed.

Lemma choice_inv (b : IntervalBrancher) (d : Description) :
  choice b = Some d ->
  exists v wi,
    nth_error (x b) (start b) = Some v /\ nth_error (w b) (start b) = Some wi
    /\ d = new_Description b 2 (Z.of_nat (start b)) (split_point d)
    /\ choice_loop (p b) v wi (values v) None = Some (split_point d).
Proof.
  unfold choice.
  destruct (nth_error (x b) (start b)) as [v |]; [| discriminate].
  destruct (nth_error (w b) (start b)) as [wi |]; [| discriminate].
  destruct (choice_loop _ _ _ _ _) as [k |] eqn:Hloop; [| discriminate].
  intros [= <-]. exists v, wi. simpl. auto.
Qed.

(** C2: for a description [d] that [choice] produced, committing
    alternative 0 and alternative 1 on two clones of the node leaves
    for [x[pos]] the values at most the split point and the values
    above it: no value is left by both, and every value of the prior
    domain is left by exactly one. *)
Theorem commit_alternatives_partition (b : IntervalBrancher) (d : Description) :
  choice b = Some d ->
  exists v,
    nth_error (x b) (Z.to_nat (pos d)) = Some v
    /\ forall u,
        (In u (left_values (commit (copy b) d 0) (Z.to_nat (pos d)))
           <-> In u (values v) /\ u <= split_point d)
        /\ (In u (left_values (commit (copy b) d 1) (Z.to_nat (pos d)))
           <-> In u (values v) /\ u > split_point d)
        /\ ~ (u <= split_point d /\ u > split_point d)
        /\ ~ (In u (left_values (commit (copy b) d 0) (Z.to_nat (pos d)))
              /\ In u (left_values (commit (copy b) d 1) (Z.to_nat (pos d))))
        /\ (In u (values v) ->
              (In u (left_values (commit (copy b) d 0) (Z.to_nat (pos d)))
               /\ ~ In u (left_values (commit (copy b) d 1) (Z.to_nat (pos d))))
              \/ (In u (left_values (commit (copy b) d 1) (Z.to_nat (pos d)))
                  /\ ~ In u (left_values (commit (copy b) d 0) (Z.to_nat (pos d))))).
Proof.
  intros Hd. destruct (choice_inv b d Hd) as (v & wi & Hx & _ & Hnew & _).
  assert (Hpos : pos d = Z.of_nat (start b)) by (rewrite Hnew; reflexivity).
  assert (Hx' : nth_error (x b) (Z.to_nat (pos d)) = Some v)
    by (rewrite Hpos, Nat2Z.id; exact Hx).
  exists v. split; [exact Hx' |]. intros u. rewrite copy_same.
  rewrite (commit_lq_values b d v) by (auto; lia).
  rewrite (commit_gr_values b d v 1) by (auto; lia).
  rewrite !filter_In. unfold values.
  destruct (Z.leb_spec u (split_point d)), (Z.ltb_spec (split_point d) u);
    try lia; intuition (try lia; try discriminate).
Qed.

(** ** Archives *)






(** ** Posting *)

(** C10: [interval] throws [ArgumentSizeMismatch("interval")] exactly
    when the sizes of [x] and [w] differ, and then nothing has been
    posted; with equal sizes, in a failed space it returns the space as
    it was, and otherwise it returns the space with the brancher posted.
    In a failed space it never returns anything but the space as it was. *)
Theorem interval_post (home : Space) (x0 : list IntView) (w0 : list Z) (p0 : float) :
  (interval home x0 w0 p0 = inl (ArgumentSizeMismatch "interval")
     <-> length x0 <> length w0)
  /\ ((exists e, interval home x0 w0 p0 = inl e) <-> length x0 <> length w0)
  /\ (length x0 = length w0 -> failed home = true ->
      interval home x0 w0 p0 = inr home)
  /\ (failed home = true ->
      forall home', interval home x0 w0 p0 = inr home' -> home' = home)
  /\ (length x0 = length w0 -> failed home = false ->
      interval home x0 w0 p0 = inr (post home x0 w0 p0)
      /\ length (branchers (post home x0 w0 p0)) = S (length (branchers home))).
Proof.
  unfold interval.
  destruct (Nat.eqb_spec (length x0) (length w0)) as [Heq | Hne]; simpl.
  - destruct (failed home) eqn:Hf; repeat split; try congruence;
      try (intros (e & He); discriminate); try discriminate; try tauto;
      try (rewrite map_id; reflexivity);
      try (intros; rewrite length_app; simpl; lia).
  - repeat split; try tauto; try congruence. intros _. eauto.
Qed.

(** The brancher [interval] posts satisfies the invariant, and cloning keeps it. *)
Lemma interval_wf (home home' : Space) (x0 : list IntView) (w0 : list Z) (p0 : float) :
  failed home = false -> interval home x0 w0 p0 = inr home' ->
  Forall dom_ok x0 -> Z.of_nat (length x0) <= Int.max_int ->
  exists b, branchers home' = branchers home ++ [b] /\ wf b /\ start b = 0%nat.
Proof.
  unfold interval. intros Hlive.
  destruct (Nat.eqb_spec (length x0) (length w0)) as [Heq | Hne]; simpl; [| discriminate].
  rewrite Hlive. intros [= <-] Hdoms Hsize. eexists. split; [reflexivity |].
  split; [| reflexivity]. unfold wf; simpl. rewrite length_map. auto.
Qed.

Lemma copy_wf (b : IntervalBrancher) : wf b -> wf (copy b).
Proof. now rewrite copy_same. Qed.

(** ** The scenario of the specification *)

(** C5, as the code has it: for the domain [[0,10]], width 4 and
    fraction 0.5, [status] selects the variable and [choice] returns
    the split point 2, the largest [k] with [(0 + 4) - k >= 0.5 * 4]. *)
Theorem scenario_split_point :
  fst (status scenario) = true
  /\ exists d, choice (snd (status scenario)) = Some d
               /\ pos d = 0 /\ split_point d = 2
               /\ left_values (commit (snd (status scenario)) d 0) 0 = [0; 1; 2]
               /\ left_values (commit (snd (status scenario)) d 1) 0 = [3; 4; 5; 6; 7; 8; 9; 10].
Proof.
  split; [vm_compute; reflexivity |].
  eexists. split; [vm_compute; reflexivity |].
  repeat split; vm_compute; reflexivity.
Qed.

(** The split point [choice] returns in the scenario is not 8. *)
Lemma scenario_split_point_not_8 :
  ~ exists d, choice (snd (status scenario)) = Some d /\ split_point d = 8.
Proof.
  intros (d & Hd & Hsp). vm_compute in Hd. injection Hd as <-. discriminate.
Qed.

(** ** The split point exists and is below the maximum *)

Lemma sub_add_cancel (m wi : Z) : Int.in_range wi -> Int.sub (Int.add m wi) m = wi.
Proof.
  unfold Int.in_range, Int.min_int, Int.max_int, Int.sub, Int.add, Int.wrap. intros Hwi.
  replace ((m + wi + 2147483648) mod 4294967296 - 2147483648 - m + 2147483648)
    with ((m + wi + 2147483648) mod 4294967296 - m) by lia.
  rewrite Zminus_mod_idemp_l.
  replace (m + wi + 2147483648 - m) with (wi + 2147483648) by lia.
  rewrite Z.mod_small; lia.
Qed.

Lemma sorted_le_last (v : list Z) :
  StronglySorted Z.lt v -> forall k, In k v -> k <= last v 0.
Proof.
  induction 1 as [| u v Hsorted IH Hlt]; intros k Hin; [destruct Hin |].
  rewrite Forall_forall in Hlt.
  destruct v as [| u' v'].
  - destruct Hin as [<- | []]. simpl. lia.
  - change (last (u :: u' :: v') 0) with (last (u' :: v') 0).
    destruct Hin as [<- | Hin]; [| now apply IH].
    specialize (IH u' (or_introl eq_refl)). specialize (Hlt u' (or_introl eq_refl)). lia.
Qed.

Lemma last_In (v : list Z) : v <> [] -> In (last v 0) v.
Proof.
  induction v as [| u v IH]; [congruence |]. intros _.
  destruct v as [| u' v']; [now left |].
  right. apply IH. discriminate.
Qed.

Lemma min_In (v : IntView) : v <> [] -> In (min v) (values v).
Proof. destruct v; [congruence |]. intros _. now left. Qed.

(** With [0 < p <= 1] and a width that is not negative, the minimum
    of the domain passes the test of [choice]. *)
Lemma slack_ge_min (p0 : float) (v : IntView) (wi : Z) :
  PrimFloat.ltb 0 p0 = true -> PrimFloat.leb p0 1 = true ->
  0 <= wi <= Int.max_int ->
  slack_ge p0 v wi (min v) = true.
Proof.
  intros Hpos Hle Hwi. unfold slack_ge, Int.ge_double.
  rewrite sub_add_cancel by (unfold Int.in_range, Int.min_int, Int.max_int in *; lia).
  unfold Int.to_double. destruct (Z.ltb_spec wi 0); [lia |].
  apply Double.mul_unit_le; auto. unfold Int.max_int in Hwi.
  change (2 ^ 31) with 2147483648. lia.
Qed.

(** What [status] selected does not pass the test of [choice] at its maximum. *)
Lemma selects_not_slack_ge_max (p0 : float) (v : IntView) (wi : Z) :
  selects p0 v wi = true -> slack_ge p0 v wi (max v) = false.
Proof.
  unfold selects, slack_ge, Int.lt_double, Int.ge_double.
  intros H. apply andb_true_iff in H as [Hlt _]. now apply Double.ltb_not_leb.
Qed.

(** C6: when [status] has answered true for the position [start], and
    [0 < p <= 1] and [w[start] >= 0], the minimum of the domain of
    [x[start]] is a value [k] with [(min + w[start]) - k >= p*w[start]];
    so [choice] assigns [split_point] before it stores it: it returns a
    description, whose split point is the largest such value, lies
    strictly below the maximum, and leaves both alternatives of
    [commit] a domain that is not empty. *)
Theorem choice_assigns_split_point (b0 b : IntervalBrancher) (v : IntView) (wi : Z) :
  wf b0 -> status b0 = (true, b) ->
  nth_error (x b) (start b) = Some v -> nth_error (w b) (start b) = Some wi ->
  PrimFloat.ltb 0 (p b) = true -> PrimFloat.leb (p b) 1 = true ->
  0 <= wi <= Int.max_int ->
  In (min v) (values v)
  /\ Int.ge_double (Int.sub (Int.add (min v) wi) (min v))
                   (PrimFloat.mul (p b) (Int.to_double wi)) = true
  /\ exists d,
       choice b = Some d
       /\ pos d = Z.of_nat (start b)
       /\ largest_slack_value (p b) v wi (split_point d)
       /\ split_point d < max v
       /\ left_values (commit b d 0) (start b) <> []
       /\ left_values (commit b d 1) (start b) <> [].
Proof.
  intros Hwf0 Hstatus Hx Hw Hpos Hle Hwi.
  assert (Htrue : fst (status b0) = true) by (rewrite Hstatus; reflexivity).
  assert (Hb : snd (status b0) = b) by (rewrite Hstatus; reflexivity).
  assert (Hwf : wf b) by (rewrite <- Hb; now apply wf_status).
  destruct (wf_view b _ v Hwf Hx) as (Hne & Hsorted & Hlim).
  (* the variable at [start] is the one [status] selected *)
  assert (Hsel : selects (p b) v wi = true).
  { destruct (status_selected b0 Htrue) as (_ & Hsel & _). rewrite Hb in Hsel.
    destruct (status_true_inv b0 Htrue) as (j & _ & Hset). rewrite Hb in Hset.
    apply selects_selected_at in Hsel as (v' & wi' & Hx' & Hw' & Hs).
    clear Hstatus Hb Hwf Hne Hsorted Hlim. subst b. simpl in *. congruence. }
  pose proof (slack_ge_min (p b) v wi Hpos Hle Hwi) as Hmin.
  pose proof (selects_not_slack_ge_max _ _ _ Hsel) as Hmax.
  split; [now apply min_In | split; [exact Hmin |]].
  pose proof (choice_loop_sorted (p b) v wi (values v) Hsorted None) as Hloop.
  destruct (choice_loop (p b) v wi (values v) None) as [k |] eqn:Hk.
  - destruct Hloop as [(Hin & Hge & Hlargest) | (Hsp & _)]; [| discriminate].
    assert (Hd : choice b = Some (new_Description b 2 (Z.of_nat (start b)) k))
      by (unfold choice; rewrite Hx, Hw, Hk; reflexivity).
    assert (Hltmax : k < max v).
    { pose proof (sorted_le_last v Hsorted k Hin) as Hlast. unfold max.
      assert (k <> last v 0) by (intros ->; unfold max in Hmax; congruence). lia. }
    exists (new_Description b 2 (Z.of_nat (start b)) k).
    split; [exact Hd | split; [reflexivity | split; [| split; [exact Hltmax | split]]]].
    + split; [exact Hin | split; [exact Hge | exact Hlargest]].
    + rewrite <- (Nat2Z.id (start b)) at 2.
      change (Z.of_nat (start b)) with (pos (new_Description b 2 (Z.of_nat (start b)) k)) at 2.
      rewrite (commit_lq_values b _ v); simpl; try lia; [| now rewrite Nat2Z.id].
      intros Hnil. assert (Hin' : In k (filter (fun u => u <=? k) v))
        by (apply filter_In; split; [exact Hin | apply Z.leb_le; lia]).
      rewrite Hnil in Hin'. destruct Hin'.
    + rewrite <- (Nat2Z.id (start b)) at 2.
      change (Z.of_nat (start b)) with (pos (new_Description b 2 (Z.of_nat (start b)) k)) at 2.
      rewrite (commit_gr_values b _ v 1); simpl; try lia; [| now rewrite Nat2Z.id].
      intros Hnil. assert (Hin' : In (max v) (filter (fun u => k <? u) v))
        by (apply filter_In; split; [now apply last_In | apply Z.ltb_lt; lia]).
      rewrite Hnil in Hin'. destruct Hin'.
  - destruct Hloop as (_ & Hnone).
    rewrite (Hnone _ (min_In v Hne)) in Hmin. discriminate.
Qed.

(** ** The theorems at the scenario of the specification *)

Ltac scenario_wf :=
  unfold wf, scenario; cbn [x w length];
  split; [reflexivity | split; [unfold Int.max_int; cbn; lia |]];
  constructor; [| constructor];
  unfold dom_ok, Limits_min, Limits_max;
  split; [discriminate | split; repeat constructor; lia].

(** [status] on the scenario: the characterisation of its answer. *)
Lemma status_first_selected_witness :
  wf scenario
  /\ (fst (status scenario) = true <-> exists i, (start scenario <= i)%nat /\ selected_at scenario i).
Proof.
  assert (Hwf : wf scenario) by scenario_wf.
  split; [exact Hwf | exact (proj1 (status_first_selected scenario Hwf))].
Defined.

(** [choice] on the scenario, after [status]: the value 0 passes the test. *)
Lemma choice_split_point_largest_witness :
  wf scenario /\ status scenario = (true, scenario)
  /\ exists d, choice scenario = Some d
               /\ pos d = Z.of_nat (start scenario)
               /\ largest_slack_value (p scenario)
                                      [0; 1; 2; 3; 4; 5; 6; 7; 8; 9; 10] 4 (split_point d)
               /\ forall k, largest_slack_value (p scenario)
                                                [0; 1; 2; 3; 4; 5; 6; 7; 8; 9; 10] 4 k ->
                            k = split_point d.
Proof.
  assert (Hwf : wf scenario) by scenario_wf.
  assert (Hstatus : status scenario = (true, scenario)) by (vm_compute; reflexivity).
  split; [exact Hwf | split; [exact Hstatus |]].
  apply (choice_split_point_largest scenario scenario _ 4 0 Hwf Hstatus);
    [reflexivity | reflexivity | simpl; auto | vm_compute; reflexivity].
Defined.

(** With the fraction 2, [status] answers true and no value of the
    domain is the largest one passing the test, there being none that
    passes: the loop of [choice] never assigns [split_point], and the
    description [choice] builds holds no such value. *)
Lemma overshoot_no_split_point :
  wf overshoot /\ status overshoot = (true, overshoot)
  /\ nth_error (x overshoot) (start overshoot) = Some [0; 1; 2; 3; 4; 5; 6; 7; 8; 9; 10]
  /\ nth_error (w overshoot) (start overshoot) = Some 4
  /\ (forall k, ~ largest_slack_value (p overshoot)
                                      [0; 1; 2; 3; 4; 5; 6; 7; 8; 9; 10] 4 k)
  /\ ~ exists d, choice overshoot = Some d
                 /\ largest_slack_value (p overshoot)
                                        [0; 1; 2; 3; 4; 5; 6; 7; 8; 9; 10] 4
                                        (split_point d).
Proof.
  assert (Hwf : wf overshoot).
  { unfold wf, overshoot; cbn [x w length].
    split; [reflexivity | split; [unfold Int.max_int; cbn; lia |]].
    constructor; [| constructor].
    unfold dom_ok, Limits_min, Limits_max.
    split; [discriminate | split; repeat constructor; lia]. }
  assert (Hchoice : choice overshoot = None) by (vm_compute; reflexivity).
  assert (Hnone : forall k, ~ largest_slack_value (p overshoot)
                                [0; 1; 2; 3; 4; 5; 6; 7; 8; 9; 10] 4 k).
  { intros k Hk.
    apply (choice_split_point overshoot _ 4 Hwf eq_refl eq_refl k) in Hk.
    destruct Hk as (d & Hd & _). rewrite Hchoice in Hd. discriminate. }
  split; [exact Hwf | split; [vm_compute; reflexivity |]].
  split; [reflexivity | split; [reflexivity | split; [exact Hnone |]]].
  intros (d & _ & Hk). exact (Hnone _ Hk).
Qed.

(** The first alternative of the choice of the scenario. *)
Lemma commit_alternatives_partition_witness :
  choice scenario = Some (new_Description scenario 2 0 2)
  /\ exists v,
      nth_error (x scenario) (Z.to_nat (pos (new_Description scenario 2 0 2))) = Some v
      /\ forall u,
          (In u (left_values (commit (copy scenario) (new_Description scenario 2 0 2) 0)
                             (Z.to_nat (pos (new_Description scenario 2 0 2))))
             <-> In u (values v) /\ u <= split_point (new_Description scenario 2 0 2)).
Proof.
  assert (Hd : choice scenario = Some (new_Description scenario 2 0 2))
    by (vm_compute; reflexivity).
  split; [exact Hd |].
  destruct (commit_alternatives_partition scenario _ Hd) as (v & Hx & Hall).
  exists v. split; [exact Hx |]. intros u. exact (proj1 (Hall u)).
Defined.


(** The scenario has [0 < p <= 1] and a width that is not negative. *)
Lemma choice_assigns_split_point_witness :
  wf scenario /\ status scenario = (true, scenario)
  /\ PrimFloat.ltb 0 (p scenario) = true /\ PrimFloat.leb (p scenario) 1 = true
  /\ 0 <= 4 <= Int.max_int
  /\ exists d,
       choice scenario = Some d
       /\ pos d = Z.of_nat (start scenario)
       /\ largest_slack_value (p scenario) [0; 1; 2; 3; 4; 5; 6; 7; 8; 9; 10] 4 (split_point d)
       /\ split_point d < max [0; 1; 2; 3; 4; 5; 6; 7; 8; 9; 10]
       /\ left_values (commit scenario d 0) (start scenario) <> []
       /\ left_values (commit scenario d 1) (start scenario) <> [].
Proof.
  assert (Hwf : wf scenario) by scenario_wf.
  assert (Hst : status scenario = (true, scenario)) by (vm_compute; reflexivity).
  assert (Hpos : PrimFloat.ltb 0 (p scenario) = true) by (vm_compute; reflexivity).
  assert (Hle : PrimFloat.leb (p scenario) 1 = true) by (vm_compute; reflexivity).
  assert (Hwi : 0 <= 4 <= Int.max_int) by (unfold Int.max_int; lia).
  split; [exact Hwf | split; [exact Hst | split; [exact Hpos | split; [exact Hle |
    split; [exact Hwi |]]]]].
  exact (proj2 (proj2 (choice_assigns_split_point scenario scenario
                         [0; 1; 2; 3; 4; 5; 6; 7; 8; 9; 10] 4
                         Hwf Hst eq_refl eq_refl Hpos Hle Hwi))).
Defined.

End IntervalFacts.

(** * Properties of the still-life model *)

Module StillLifeFacts.
Import StillLife.

Lemma In_range (lo hi i : Z) : In i (range lo hi) <-> lo <= i < hi.
Proof.
  unfold range. rewrite in_map_iff. split.
  - intros (k & <- & Hk). apply in_seq in Hk. lia.
  - intros Hi. exists (Z.to_nat (i - lo)). split; [lia |]. apply in_seq. lia.
Qed.

(** ** What the loops of the constructor post *)

Lemma row_body_keeps (bs col row : Z) (st : list Constraint * Z) (c : Constraint) :
  In c (fst st) -> In c (fst (row_body bs col st row)).
Proof.
  destruct st as [cs blockNo]. unfold row_body. simpl.
  destruct (_ && _); simpl; intros Hin; rewrite ?in_app_iff; auto.
Qed.

Lemma row_body_posts (bs col row : Z) (st : list Constraint * Z) (c : Constraint) :
  In c (still_life_constraints bs col row) -> In c (fst (row_body bs col st row)).
Proof.
  destruct st as [cs blockNo]. unfold row_body.
  intros Hin. destruct (_ && _); cbn [fst]; rewrite ?in_app_iff; tauto.
Qed.

Lemma rows_keep (bs col : Z) (rows : list Z) :
  forall (st : list Constraint * Z) (c : Constraint),
    In c (fst st) -> In c (fst (fold_left (row_body bs col) rows st)).
Proof.
  induction rows as [| row rows IH]; intros st c Hin; simpl; auto.
  apply IH. now apply row_body_keeps.
Qed.

Lemma rows_post (bs col row : Z) (rows : list Z) :
  forall (st : list Constraint * Z) (c : Constraint),
    In row rows -> In c (still_life_constraints bs col row) ->
    In c (fst (fold_left (row_body bs col) rows st)).
Proof.
  induction rows as [| row' rows IH]; intros st c Hrow Hin; simpl; [destruct Hrow |].
  destruct Hrow as [-> | Hrow].
  - apply rows_keep. now apply row_body_posts.
  - now apply IH.
Qed.

Lemma col_body_keeps (bs col : Z) (st : list Constraint * Z) (c : Constraint) :
  In c (fst st) -> In c (fst (col_body bs st col)).
Proof.
  intros Hin. unfold col_body.
  pose proof (rows_keep bs col (range 2 (bs - 2)) st c Hin) as Hkeep.
  destruct (fold_left _ _ st) as [cs blockNo]. cbn [fst] in *.
  rewrite in_app_iff. now left.
Qed.

Lemma col_body_posts (bs col row : Z) (st : list Constraint * Z) (c : Constraint) :
  2 <= row < bs - 2 -> In c (still_life_constraints bs col row) ->
  In c (fst (col_body bs st col)).
Proof.
  intros Hrow Hin. unfold col_body.
  pose proof (rows_post bs col row (range 2 (bs - 2)) st c
                (proj2 (In_range _ _ _) Hrow) Hin) as Hpost.
  destruct (fold_left _ _ st) as [cs blockNo]. cbn [fst] in *.
  rewrite in_app_iff. now left.
Qed.

Lemma cols_keep (bs : Z) (cols : list Z) :
  forall (st : list Constraint * Z) (c : Constraint),
    In c (fst st) -> In c (fst (fold_left (col_body bs) cols st)).
Proof.
  induction cols as [| col cols IH]; intros st c Hin; simpl; auto.
  apply IH. now apply col_body_keeps.
Qed.

Lemma cols_post (bs col row : Z) (cols : list Z) :
  forall (st : list Constraint * Z) (c : Constraint),
    In col cols -> 2 <= row < bs - 2 -> In c (still_life_constraints bs col row) ->
    In c (fst (fold_left (col_body bs) cols st)).
Proof.
  induction cols as [| col' cols IH]; intros st c Hcol Hrow Hin; simpl; [destruct Hcol |].
  destruct Hcol as [-> | Hcol].
  - apply cols_keep. now apply col_body_posts with row.
  - now apply IH.
Qed.

(** The constructor posts the still-life constraints of every interior cell. *)
Lemma posted_still_life (size col row : Z) (c : Constraint) :
  interior (new_MaximumDensityStillLife size) col row ->
  In c (still_life_constraints (size + 4) col row) ->
  In c (posted (new_MaximumDensityStillLife size)).
Proof.
  unfold interior, new_MaximumDensityStillLife.
  set (st0 := (_ ++ _, 0)).
  pose proof (fun Hc Hr Hin =>
    cols_post (size + 4) col row (range 2 (size + 4 - 2)) st0 c Hc Hr Hin) as Hpost.
  destruct (fold_left _ _ st0) as [cs blockNo]. cbn [fst board_size posted] in *.
  intros [Hcol Hrow] Hin. apply Hpost; auto. now apply In_range.
Qed.

Lemma board_size_new (size : Z) : board_size (new_MaximumDensityStillLife size) = size + 4.
Proof.
  unfold new_MaximumDensityStillLife. now destruct (fold_left _ _ _).
Qed.

Lemma solution_holds (sp : MaximumDensityStillLife) (a : Assignment) (c : Constraint) :
  solution sp a = true -> In c (posted sp) -> holds a c = true.
Proof. unfold solution. rewrite forallb_forall. auto. Qed.

(** C7: the constructor posts, for every interior cell,
    [linear(neighbours, IRT_EQ, 3, three_neighbours)] and
    [!matrix(col,row) >> !three_neighbours]; so an assignment in which
    an interior cell is dead and has exactly three live neighbours is not
    a solution, whatever it gives the other variables, and no solution
    has a dead interior cell with exactly three live neighbours. *)
Theorem dead_cell_with_three_neighbours_rejected (size col row : Z) (a : Assignment) :
  interior (new_MaximumDensityStillLife size) col row ->
  a (matrix (board_size (new_MaximumDensityStillLife size)) col row) = 0 ->
  live_neighbours (new_MaximumDensityStillLife size) a col row = 3 ->
  In (linear_reif (getNeighbours (size + 4) col row) IRT_EQ 3 (three_neighbours col row))
     (posted (new_MaximumDensityStillLife size))
  /\ In (rel_bool (BE_imp (BE_not (BE_var (matrix (size + 4) col row)))
                          (BE_not (BE_var (three_neighbours col row)))))
        (posted (new_MaximumDensityStillLife size))
  /\ solution (new_MaximumDensityStillLife size) a = false.
Proof.
  intros Hint Hdead Hthree.
  assert (Hreif := posted_still_life size col row _ Hint
                     (or_intror (or_introl eq_refl))).
  assert (Himp := posted_still_life size col row _ Hint
                    (or_intror (or_intror (or_intror (or_intror (or_introl eq_refl)))))).
  split; [exact Hreif | split; [exact Himp |]].
  destruct (solution _ a) eqn:Hsol; [| reflexivity].
  pose proof (solution_holds _ _ _ Hsol Hreif) as H1.
  pose proof (solution_holds _ _ _ Hsol Himp) as H2.
  unfold live_neighbours in Hthree. rewrite board_size_new in Hthree, Hdead.
  cbn [holds eval_bool irt_holds] in H1, H2. unfold truth in H1, H2.
  rewrite Hthree in H1. rewrite Hdead in H2. simpl in H1, H2.
  destruct (a (three_neighbours col row) =? 1); discriminate.
Qed.

(** C8: for the interior size 4 the board is 8 by 8, and the assignment
    that gives 0 to every variable (every cell, [noOfLives], every entry
    of [sliceOfMDP]) satisfies all that the constructor posts: it is a
    solution. *)
Theorem all_zero_is_solution :
  board_size (new_MaximumDensityStillLife 4) = 8
  /\ length (cells (new_MaximumDensityStillLife 4)) = 64%nat
  /\ length (sliceOfMDP (new_MaximumDensityStillLife 4)) = 4%nat
  /\ Forall (fun c => holds all_zero c = true) (posted (new_MaximumDensityStillLife 4))
  /\ solution (new_MaximumDensityStillLife 4) all_zero = true.
Proof.
  split; [reflexivity | split; [reflexivity | split; [reflexivity | split]]].
  - apply Forall_forall. apply forallb_forall. vm_compute. reflexivity.
  - vm_compute. reflexivity.
Qed.

(** ** Branch and bound *)

Lemma solution_constrain (sp : MaximumDensityStillLife) (s a : Assignment) :
  solution (constrain sp s) a = true <->
  solution sp a = true /\ lives sp s < lives sp a /\ density sp s < density sp a.
Proof.
  unfold solution, constrain, lives, density. cbn [posted].
  rewrite forallb_app, andb_true_iff. cbn [forallb holds irt_holds eval_lin noOfLives sliceOfMDP].
  rewrite !andb_true_iff, !Z.ltb_lt. tauto.
Qed.

Lemma bab_improving (root : MaximumDensityStillLife) (nodes : list Assignment) :
  forall best : option Assignment, improving root best (bab root best nodes).
Proof.
  induction nodes as [| a nodes IH]; intros best; simpl; [exact I |].
  destruct best as [s |].
  - destruct (solution (constrain root s) a) eqn:Hsol; [| apply IH].
    apply solution_constrain in Hsol as (_ & Hl & Hd).
    simpl. split; [split; assumption | apply IH].
  - destruct (solution root a); [| apply IH].
    simpl. split; [exact I | apply IH].
Qed.

(** C4: [constrain(s)] adds to the space [noOfLives > s.noOfLives] and
    [sum(sliceOfMDP) > sum(s.sliceOfMDP)] and nothing else; a solution of
    the constrained space has more live cells and a larger density sum
    than [s]; and in a branch-and-bound search, which constrains every
    space explored after a solution with that solution, each solution
    yielded has strictly more live cells and a strictly larger density
    sum than the one yielded before it. *)
Theorem constrain_improves (root : MaximumDensityStillLife) (s : Assignment)
    (nodes : list Assignment) :
  posted (constrain root s)
    = posted root ++
      [ rel_lin (LE_var (noOfLives root)) IRT_GR (LE_val (s (noOfLives root)));
        rel_lin (LE_sum (sliceOfMDP root)) IRT_GR (LE_val (sum_of s (sliceOfMDP root))) ]
  /\ (forall a, solution (constrain root s) a = true ->
                lives root s < lives root a /\ density root s < density root a)
  /\ improving root None (bab root None nodes)
  /\ improving root (Some s) (bab root (Some s) nodes).
Proof.
  split; [reflexivity | split; [| split; apply bab_improving]].
  intros a Hsol. now apply solution_constrain in Hsol.
Qed.

(** ** The rejection at an assignment of the board of size 4 *)

(** [three_above] is rejected. *)
Lemma dead_cell_with_three_neighbours_rejected_witness :
  interior (new_MaximumDensityStillLife 4) 3 3
  /\ three_above (matrix (board_size (new_MaximumDensityStillLife 4)) 3 3) = 0
  /\ live_neighbours (new_MaximumDensityStillLife 4) three_above 3 3 = 3
  /\ solution (new_MaximumDensityStillLife 4) three_above = false.
Proof.
  assert (Hint : interior (new_MaximumDensityStillLife 4) 3 3)
    by (unfold interior; change (board_size (new_MaximumDensityStillLife 4)) with 8; lia).
  assert (Hdead : three_above (matrix (board_size (new_MaximumDensityStillLife 4)) 3 3) = 0)
    by reflexivity.
  assert (Hthree : live_neighbours (new_MaximumDensityStillLife 4) three_above 3 3 = 3)
    by reflexivity.
  split; [exact Hint | split; [exact Hdead | split; [exact Hthree |]]].
  exact (proj2 (proj2 (dead_cell_with_three_neighbours_rejected 4 3 3 three_above
                         Hint Hdead Hthree))).
Defined.

End StillLifeFacts.

(** * The order of integers as binary64 numbers *)

Module DoubleOrder.
Import Double.

(** A positive integer below [2^32] as a binary64 number: its mantissa
    is the integer shifted to 53 bits. *)
Lemma Prim2SF_of_pos_exact (z : positive) :
  Zpos z < 2 ^ 32 ->
  exists m,
    Prim2SF (of_uint63 (Uint63.of_Z (Zpos z)))
      = S754_finite false m (Zpos (digits2_pos z) - 53)
    /\ Zpos m = Zpos z * 2 ^ (53 - Zpos (digits2_pos z)).
Proof.
  intros Hz. rewrite of_uint63_spec, Uint63.of_Z_spec.
  rewrite Z.mod_small by (change Uint63.wB with (2 ^ 63); split; [lia |];
    apply Z.lt_trans with (2 ^ 32); [exact Hz | reflexivity]).
  cbn [binary_normalize]. unfold binary_round, shl_align.
  pose proof (digits2_pos_bounds z) as [Hlo Hhi].
  set (d := Zpos (digits2_pos z)) in *.
  assert (Hd : 1 <= d <= 32).
  { split; [unfold d; lia |].
    assert (d - 1 < 32) by (apply (Z.pow_lt_mono_r_iff 2); lia). lia. }
  rewrite fexp_eq.
  destruct (Z.max (d + 0 - 53) (-1074) - 0) as [| k | k] eqn:Hk; try lia.
  assert (Hmz : Zpos (Pos.iter xO z k) = Zpos z * 2 ^ (53 - d)).
  { rewrite iter_xO_value. f_equal. f_equal. lia. }
  assert (Hrange : 2 ^ 52 <= Zpos (Pos.iter xO z k) < 2 ^ 53).
  { rewrite Hmz.
    assert (E52 : 2 ^ 52 = 2 ^ (d - 1) * 2 ^ (53 - d))
      by (rewrite <- Z.pow_add_r by lia; f_equal; lia).
    assert (E53 : 2 ^ 53 = 2 ^ d * 2 ^ (53 - d))
      by (rewrite <- Z.pow_add_r by lia; f_equal; lia).
    assert (0 < 2 ^ (53 - d)) by (apply Z.pow_pos_nonneg; lia).
    rewrite E52, E53. nia. }
  exists (Pos.iter xO z k). split; [| exact Hmz].
  replace (Z.max (d + 0 - 53) (-1074)) with (d - 53) by lia.
  apply binary_round_aux_normal; [exact Hrange | lia].
Qed.

(** Larger integers have larger exponents, or the same exponent and a
    larger mantissa. *)
Lemma digits_mantissa_mono (z1 z2 m1 m2 : positive) :
  Zpos z1 <= Zpos z2 ->
  Zpos m1 = Zpos z1 * 2 ^ (53 - Zpos (digits2_pos z1)) ->
  Zpos m2 = Zpos z2 * 2 ^ (53 - Zpos (digits2_pos z2)) ->
  Zpos (digits2_pos z1) < Zpos (digits2_pos z2)
  \/ (Zpos (digits2_pos z1) = Zpos (digits2_pos z2) /\ Zpos m1 <= Zpos m2).
Proof.
  intros Hle Hm1 Hm2.
  pose proof (digits2_pos_bounds z1) as [Hlo1 _].
  pose proof (digits2_pos_bounds z2) as [_ Hhi2].
  assert (Hd : Zpos (digits2_pos z1) - 1 < Zpos (digits2_pos z2))
    by (apply (Z.pow_lt_mono_r_iff 2); lia).
  destruct (Z.eq_dec (Zpos (digits2_pos z1)) (Zpos (digits2_pos z2))) as [Heq | Hne];
    [right | left; lia].
  split; [exact Heq |]. rewrite Hm1, Hm2, Heq.
  apply Z.mul_le_mono_nonneg_r; [apply Z.pow_nonneg; lia | exact Hle].
Qed.

Lemma SFltb_pos (m1 m2 : positive) (e1 e2 : Z) :
  SFltb (S754_finite false m1 e1) (S754_finite false m2 e2) = true
  <-> e1 < e2 \/ (e1 = e2 /\ Zpos m1 < Zpos m2).
Proof.
  unfold SFltb, SFcompare. rewrite compare_cont_Eq.
  destruct (Z.compare_spec e1 e2), (Pos.compare_spec m1 m2);
    split; intros Hlt; try discriminate; try reflexivity; try lia.
Qed.

Lemma SFltb_neg (m1 m2 : positive) (e1 e2 : Z) :
  SFltb (S754_finite true m1 e1) (S754_finite true m2 e2) = true
  <-> e2 < e1 \/ (e1 = e2 /\ Zpos m2 < Zpos m1).
Proof.
  unfold SFltb, SFcompare. rewrite compare_cont_Eq.
  destruct (Z.compare_spec e1 e2), (Pos.compare_spec m1 m2);
    split; intros Hlt; simpl in *; try discriminate; try reflexivity; try lia.
Qed.

(** The binary64 number of an [int]. *)
Lemma Prim2SF_to_double (i : Z) :
  Int.in_range i ->
  match i with
  | Z0 => Prim2SF (Int.to_double i) = S754_zero false
  | Zpos z =>
      exists m, Prim2SF (Int.to_double i) = S754_finite false m (Zpos (digits2_pos z) - 53)
                /\ Zpos m = Zpos z * 2 ^ (53 - Zpos (digits2_pos z))
  | Zneg z =>
      exists m, Prim2SF (Int.to_double i) = S754_finite true m (Zpos (digits2_pos z) - 53)
                /\ Zpos m = Zpos z * 2 ^ (53 - Zpos (digits2_pos z))
  end.
Proof.
  unfold Int.in_range, Int.min_int, Int.max_int, Int.to_double. intros Hi.
  destruct i as [| z | z].
  - reflexivity.
  - cbn [Z.ltb Z.compare]. apply Prim2SF_of_pos_exact.
    change (2 ^ 32) with 4294967296. lia.
  - cbn [Z.ltb Z.compare Z.opp]. rewrite opp_spec.
    destruct (Prim2SF_of_pos_exact z) as (m & -> & Hm).
    + change (2 ^ 32) with 4294967296. lia.
    + exists m. split; [reflexivity | exact Hm].
Qed.

(** The conversion keeps the order: what is below a binary64 number
    stays below it when made smaller. *)
Lemma to_double_ltb_mono (a b : Z) (c : float) :
  Int.in_range a -> Int.in_range b -> a <= b ->
  PrimFloat.ltb (Int.to_double b) c = true -> PrimFloat.ltb (Int.to_double a) c = true.
Proof.
  intros Ha Hb Hab. rewrite !ltb_spec.
  pose proof (Prim2SF_to_double a Ha) as Fa. pose proof (Prim2SF_to_double b Hb) as Fb.
  destruct a as [| za | za], b as [| zb | zb]; try lia;
    repeat match goal with
           | H : exists m, _ |- _ => destruct H as (? & ? & ?)
           end;
    repeat match goal with
           | H : Prim2SF _ = _ |- _ => rewrite H; clear H
           end;
    try (intros H; exact H);
    destruct (Prim2SF c) as [sc | sc | | sc mc ec]; try destruct sc;
    try (intros H; exact H); try discriminate; try reflexivity.
  - (* both positive *)
    rewrite !SFltb_pos.
    destruct (digits_mantissa_mono za zb _ _ ltac:(lia) ltac:(eassumption) ltac:(eassumption));
      lia.
  - (* both negative *)
    rewrite !SFltb_neg.
    destruct (digits_mantissa_mono zb za _ _ ltac:(lia) ltac:(eassumption) ltac:(eassumption));
      lia.
Qed.

End DoubleOrder.

(** * The brancher in a search *)

Module IntervalSearch.
Import Gecode IntervalBrancher IntervalFacts.

(** ** Narrowed domains *)

Lemma filter_sorted (f : Z -> bool) (v : list Z) :
  StronglySorted Z.lt v -> StronglySorted Z.lt (filter f v).
Proof.
  induction 1 as [| u v Hsorted IH Hlt]; simpl; [constructor |].
  destruct (f u); [| exact IH]. constructor; [exact IH |].
  rewrite Forall_forall in *. intros u' Hin. apply filter_In in Hin as [Hin _]. auto.
Qed.

Lemma filter_dom_ok (f : Z -> bool) (v : IntView) :
  dom_ok v -> filter f v <> [] -> dom_ok (filter f v).
Proof.
  intros (_ & Hsorted & Hlim) Hne. split; [exact Hne | split].
  - now apply filter_sorted.
  - rewrite Forall_forall in *. intros u Hin. apply filter_In in Hin as [Hin _]. auto.
Qed.

Lemma sorted_min_le (v : list Z) :
  StronglySorted Z.lt v -> forall k, In k v -> hd 0 v <= k.
Proof.
  intros Hsorted k Hin. destruct Hsorted as [| u v Hsorted Hlt]; [destruct Hin |].
  rewrite Forall_forall in Hlt. destruct Hin as [<- | Hin]; simpl; [lia |].
  specialize (Hlt _ Hin). lia.
Qed.

Lemma filter_none (f : Z -> bool) (v : list Z) :
  (forall u, In u v -> f u = false) -> filter f v = [].
Proof.
  induction v as [| u v IH]; intros Hall; [reflexivity |]. simpl.
  rewrite (Hall u (or_introl eq_refl)). apply IH. intros u' Hin. apply Hall. now right.
Qed.

Lemma filter_length_lt (f : Z -> bool) (v : list Z) (u : Z) :
  In u v -> f u = false -> (length (filter f v) < length v)%nat.
Proof.
  induction v as [| u' v IH]; intros Hin Hf; [destruct Hin |]. simpl.
  pose proof (filter_length_le f v) as Hle.
  destruct Hin as [-> | Hin].
  - rewrite Hf. lia.
  - specialize (IH Hin Hf). destruct (f u'); simpl; lia.
Qed.

(** Cutting a sorted domain at one of its values: the minimum stays,
    the value becomes the maximum. *)
Lemma filter_le_min (v : list Z) (k : Z) :
  StronglySorted Z.lt v -> In k v -> hd 0 (filter (fun u => u <=? k) v) = hd 0 v.
Proof.
  intros Hsorted Hin. pose proof (sorted_min_le v Hsorted k Hin) as Hmin.
  destruct v as [| u v]; [destruct Hin |]. simpl in *.
  destruct (Z.leb_spec u k); [reflexivity | lia].
Qed.

Lemma filter_le_last (v : list Z) (k : Z) :
  StronglySorted Z.lt v -> In k v -> last (filter (fun u => u <=? k) v) 0 = k.
Proof.
  induction 1 as [| u v Hsorted IH Hlt]; intros Hin; [destruct Hin |].
  rewrite Forall_forall in Hlt. simpl. destruct Hin as [-> | Hin].
  - rewrite Z.leb_refl.
    assert (Hnil : filter (fun u => u <=? k) v = []).
    { apply filter_none. intros u' Hin'.
      specialize (Hlt _ Hin'). apply Z.leb_gt. lia. }
    rewrite Hnil. reflexivity.
  - specialize (Hlt _ Hin). destruct (Z.leb_spec u k); [| lia].
    specialize (IH Hin).
    assert (Hin' : In k (filter (fun u0 => u0 <=? k) v))
      by (apply filter_In; split; [exact Hin | apply Z.leb_refl]).
    destruct (filter (fun u0 => u0 <=? k) v) as [| u1 v1]; [destruct Hin' |].
    exact IH.
Qed.

(** Narrowing keeps the bounds between the old ones. *)
Lemma filter_bounds (f : Z -> bool) (v : IntView) :
  dom_ok v -> filter f v <> [] ->
  min v <= min (filter f v) /\ max (filter f v) <= max v.
Proof.
  intros (Hne & Hsorted & _) Hne'. unfold min, max. split.
  - apply sorted_min_le; [exact Hsorted |].
    assert (Hin : In (hd 0 (filter f v)) (filter f v))
      by (destruct (filter f v); [congruence | now left]).
    apply filter_In in Hin. tauto.
  - apply sorted_le_last; [exact Hsorted |].
    pose proof (last_In _ Hne') as Hin. apply filter_In in Hin. tauto.
Qed.

(** ** What [commit] does to the brancher *)

Lemma set_view_other (b : IntervalBrancher) (i j : nat) (v : IntView) :
  (i < length (x b))%nat -> j <> i ->
  nth_error (x (set_view b i v)) j = nth_error (x b) j.
Proof.
  intros Hi Hj. cbn [x set_view].
  rewrite <- (firstn_skipn i (x b)) at 3.
  destruct (Nat.lt_ge_cases j i) as [Hlt | Hge].
  - rewrite !nth_error_app1 by (rewrite length_firstn; lia). reflexivity.
  - rewrite !nth_error_app2 by (rewrite length_firstn; lia).
    rewrite length_firstn, Nat.min_l by lia.
    rewrite (nth_error_skipn (x b) i (j - i)).
    destruct (j - i)%nat as [| n] eqn:Hn; [lia |]. cbn [nth_error].
    rewrite (nth_error_skipn (x b) (S i) n). f_equal. lia.
Qed.

Lemma set_view_length (b : IntervalBrancher) (i : nat) (v : IntView) :
  (i < length (x b))%nat -> length (x (set_view b i v)) = length (x b).
Proof.
  intros Hi. cbn [x set_view]. rewrite length_app, length_firstn. cbn [length].
  rewrite length_skipn. lia.
Qed.

Lemma set_view_wf (b : IntervalBrancher) (i : nat) (v : IntView) :
  wf b -> (i < length (x b))%nat -> dom_ok v -> wf (set_view b i v).
Proof.
  intros (Hlen & Hsize & Hdoms) Hi Hv. unfold wf.
  rewrite set_view_length by exact Hi. split; [exact Hlen | split; [exact Hsize |]].
  cbn [x set_view].
  pose proof Hdoms as Hfirst. rewrite <- (firstn_skipn i (x b)) in Hfirst.
  pose proof Hdoms as Hrest. rewrite <- (firstn_skipn (S i) (x b)) in Hrest.
  apply Forall_app in Hfirst as [Hfirst _]. apply Forall_app in Hrest as [_ Hrest].
  apply Forall_app. split; [exact Hfirst | constructor; [exact Hv | exact Hrest]].
Qed.

(** The cases of [commit] on a position that is an index of [x]: the
    domain is filtered by the alternative's test; an empty result fails
    and leaves the brancher as it was, any other replaces the view. *)
Lemma commit_cases (b : IntervalBrancher) (d : Description) (a : Z) (v : IntView) :
  0 <= pos d -> nth_error (x b) (Z.to_nat (pos d)) = Some v ->
  commit b d a =
    match filter (keeps d a) v with
    | [] => Some (ES_FAILED, b)
    | v' => Some (ES_OK, set_view b (Z.to_nat (pos d)) v')
    end.
Proof.
  intros Hpos Hx. unfold commit, keeps.
  destruct (pos d <? 0) eqn:Hneg; [lia |]. rewrite Hx.
  destruct (a =? 0); unfold lq, gr;
    (destruct (filter _ v) as [| u v'] eqn:Hf; simpl; [reflexivity |]);
    rewrite me_failed_shrunk; reflexivity.
Qed.

Lemma commit_some_inv (b : IntervalBrancher) (d : Description) (a : Z)
    (r : ExecStatus * IntervalBrancher) :
  commit b d a = Some r ->
  0 <= pos d /\ exists v, nth_error (x b) (Z.to_nat (pos d)) = Some v.
Proof.
  unfold commit. destruct (Z.ltb_spec (pos d) 0); [discriminate |].
  destruct (nth_error (x b) (Z.to_nat (pos d))) as [v |]; [| discriminate].
  intros _. split; [lia | now exists v].
Qed.

Lemma firstn_middle {A : Type} (l1 l3 : list A) (e : A) :
  firstn (length l1) (l1 ++ e :: l3) = l1.
Proof. induction l1 as [| a l1 IH]; simpl; [reflexivity | now rewrite IH]. Qed.

Lemma skipn_middle {A : Type} (l1 l3 : list A) (e : A) :
  skipn (S (length l1)) (l1 ++ e :: l3) = l3.
Proof. induction l1 as [| a l1 IH]; simpl; [reflexivity | exact IH]. Qed.

Lemma set_view_twice (b : IntervalBrancher) (i : nat) (v v' : IntView) :
  (i < length (x b))%nat -> set_view (set_view b i v) i v' = set_view b i v'.
Proof.
  intros Hi. unfold set_view at 1 3. cbn [id w p start]. f_equal.
  cbn [x set_view].
  assert (Hlen : length (firstn i (x b)) = i) by (rewrite length_firstn; lia).
  assert (Hmid : forall l1 l3 : list IntView, length l1 = i ->
            firstn i (l1 ++ v :: l3) ++ v' :: skipn (S i) (l1 ++ v :: l3) = l1 ++ v' :: l3)
    by (intros l1 l3 <-; now rewrite firstn_middle, skipn_middle).
  now apply Hmid.
Qed.

Lemma filter_all (f : Z -> bool) (v : list Z) :
  (forall u, In u v -> f u = true) -> filter f v = v.
Proof.
  induction v as [| u v IH]; intros Hall; [reflexivity |]. simpl.
  rewrite (Hall u (or_introl eq_refl)). f_equal. apply IH. intros u' Hin. apply Hall. now right.
Qed.

(** X1: a commit that succeeds keeps the invariant of the brancher and
    touches nothing but the view at the position of the description. *)
Theorem commit_keeps_invariant (b b' : IntervalBrancher) (d : Description) (a : Z) :
  wf b -> commit b d a = Some (ES_OK, b') ->
  wf b'
  /\ length (x b') = length (x b)
  /\ w b' = w b /\ p b' = p b /\ start b' = start b /\ id b' = id b
  /\ forall j, j <> Z.to_nat (pos d) -> nth_error (x b') j = nth_error (x b) j.
Proof.
  intros Hwf Hcommit.
  destruct (commit_some_inv _ _ _ _ Hcommit) as (Hpos & v & Hx).
  rewrite (commit_cases b d a v Hpos Hx) in Hcommit.
  assert (Hi : (Z.to_nat (pos d) < length (x b))%nat) by (apply nth_error_Some; congruence).
  destruct (filter (keeps d a) v) as [| u v'] eqn:Hf; [discriminate |].
  injection Hcommit as <-.
  assert (Hv' : dom_ok (u :: v')).
  { rewrite <- Hf. apply filter_dom_ok; [eapply wf_view; eauto | rewrite Hf; discriminate]. }
  split; [now apply set_view_wf | split; [now apply set_view_length |]].
  repeat split. intros j Hj. now apply set_view_other.
Qed.

(** X2: on a position that is an index of [x], the commit of
    alternative 0 fails exactly when the split point is below the
    minimum of the domain, the commit of any other alternative exactly
    when the split point is at least its maximum; a commit that fails
    leaves the brancher as it was. *)
Theorem commit_failure (b : IntervalBrancher) (d : Description) (a : Z) (v : IntView) :
  wf b -> 0 <= pos d -> nth_error (x b) (Z.to_nat (pos d)) = Some v ->
  ((exists b', commit b d a = Some (ES_FAILED, b'))
     <-> if a =? 0 then split_point d < min v else max v <= split_point d)
  /\ forall b', commit b d a = Some (ES_FAILED, b') -> b' = b.
Proof.
  intros Hwf Hpos Hx. rewrite (commit_cases b d a v Hpos Hx).
  destruct (wf_view _ _ _ Hwf Hx) as (Hne & Hsorted & _).
  assert (Hmin : In (min v) v) by now apply min_In.
  assert (Hmax : In (max v) v) by now apply last_In.
  destruct (filter (keeps d a) v) as [| u v'] eqn:Hf.
  - split; [| intros b' [= <-]; reflexivity].
    split; [intros _ | intros _; now exists b].
    unfold keeps in Hf. destruct (a =? 0).
    + assert (Hnot : ~ In (min v) (filter (fun u => u <=? split_point d) v))
        by (rewrite Hf; intros []).
      rewrite filter_In in Hnot. destruct (Z.leb_spec (min v) (split_point d)); tauto.
    + assert (Hnot : ~ In (max v) (filter (fun u => split_point d <? u) v))
        by (rewrite Hf; intros []).
      rewrite filter_In in Hnot. destruct (Z.ltb_spec (split_point d) (max v)); [tauto | lia].
  - split; [| discriminate].
    split; [intros (b' & Hb'); discriminate | intros Hcond; exfalso].
    assert (Hin : In u (filter (keeps d a) v)) by (rewrite Hf; now left).
    apply filter_In in Hin as [Hin Hkeep]. unfold keeps in Hkeep.
    pose proof (sorted_min_le v Hsorted u Hin) as Hlo.
    pose proof (sorted_le_last v Hsorted u Hin) as Hhi.
    unfold min, max in Hcond. destruct (a =? 0).
    + apply Z.leb_le in Hkeep. lia.
    + apply Z.ltb_lt in Hkeep. lia.
Qed.

(** X3: a commit only removes values from the domain it narrows, and
    committing the same alternative of the same description once more
    succeeds and changes nothing. *)
Theorem commit_narrows_once (b b' : IntervalBrancher) (d : Description) (a : Z) :
  commit b d a = Some (ES_OK, b') ->
  (exists v v',
      nth_error (x b) (Z.to_nat (pos d)) = Some v
      /\ nth_error (x b') (Z.to_nat (pos d)) = Some v'
      /\ (forall u, In u v' -> In u v) /\ (length v' <= length v)%nat)
  /\ commit b' d a = Some (ES_OK, b').
Proof.
  intros Hcommit.
  destruct (commit_some_inv _ _ _ _ Hcommit) as (Hpos & v & Hx).
  rewrite (commit_cases b d a v Hpos Hx) in Hcommit.
  assert (Hi : (Z.to_nat (pos d) < length (x b))%nat) by (apply nth_error_Some; congruence).
  destruct (filter (keeps d a) v) as [| u v'] eqn:Hf; [discriminate |].
  injection Hcommit as <-.
  pose proof (nth_error_set_view b _ v (u :: v') Hx) as Hx'.
  split.
  - exists v, (u :: v'). split; [exact Hx | split; [exact Hx' | split]].
    + intros u' Hin. rewrite <- Hf in Hin. apply filter_In in Hin. tauto.
    + rewrite <- Hf. apply filter_length_le.
  - rewrite (commit_cases _ d a (u :: v') Hpos Hx').
    assert (Hsame : filter (keeps d a) (u :: v') = u :: v').
    { apply filter_all. intros u' Hin. rewrite <- Hf in Hin. apply filter_In in Hin. tauto. }
    rewrite Hsame. now rewrite set_view_twice.
Qed.

Lemma leb_not_ltb (c a : float) : PrimFloat.leb c a = true -> PrimFloat.ltb a c = false.
Proof.
  intros Hle. destruct (PrimFloat.ltb a c) eqn:Hlt; [| reflexivity].
  apply Double.ltb_not_leb in Hlt. congruence.
Qed.

(** What [choice] returned: the view, the width, and the split point in
    the view passing the test. *)
Lemma choice_split_in (b : IntervalBrancher) (d : Description) :
  wf b -> choice b = Some d ->
  exists v wi,
    nth_error (x b) (start b) = Some v /\ nth_error (w b) (start b) = Some wi
    /\ pos d = Z.of_nat (start b)
    /\ In (split_point d) v /\ slack_ge (p b) v wi (split_point d) = true.
Proof.
  intros Hwf Hd. destruct (choice_inv b d Hd) as (v & wi & Hx & Hw & Hnew & _).
  exists v, wi. split; [exact Hx | split; [exact Hw | split; [now rewrite Hnew |]]].
  assert (Hlargest : largest_slack_value (p b) v wi (split_point d))
    by (apply (choice_split_point b v wi Hwf Hx Hw); now exists d).
  destruct Hlargest as (Hin & Hge & _). split; [exact Hin | exact Hge].
Qed.

(** The first alternative of a description whose split point the loop
    of [choice] assigned: the commit succeeds, and in the brancher it
    leaves the variable at the cached position is no longer one
    [status] selects. *)
Lemma settles_after_choice (b : IntervalBrancher) (d : Description) :
  wf b -> choice b = Some d ->
  exists b',
    commit b d 0 = Some (ES_OK, b')
    /\ ~ selected_at b' (start b)
    /\ (fst (status b') = true -> (start b < start (snd (status b')))%nat).
Proof.
  intros Hwf Hd.
  destruct (choice_split_in b d Hwf Hd) as (v & wi & Hx & Hw & Hpos & Hin & Hge).
  destruct (wf_view _ _ _ Hwf Hx) as (Hne & Hsorted & _).
  assert (Hx' : nth_error (x b) (Z.to_nat (pos d)) = Some v)
    by (rewrite Hpos, Nat2Z.id; exact Hx).
  rewrite (commit_cases b d 0 v ltac:(lia) Hx'). unfold keeps. cbn [Z.eqb].
  set (v' := filter (fun u => u <=? split_point d) v).
  assert (Hin' : In (split_point d) v')
    by (apply filter_In; split; [exact Hin | apply Z.leb_refl]).
  assert (Hmin : min v' = min v) by (apply filter_le_min; assumption).
  assert (Hmax : max v' = split_point d) by (apply filter_le_last; assumption).
  destruct v' as [| u v1] eqn:Hv'; [destruct Hin' |].
  exists (set_view b (Z.to_nat (pos d)) (u :: v1)).
  assert (Hnot : ~ selected_at (set_view b (Z.to_nat (pos d)) (u :: v1)) (start b)).
  { intros (v2 & wi2 & Hx2 & Hw2 & _ & Hlt).
    rewrite Hpos, Nat2Z.id in Hx2. rewrite (nth_error_set_view b _ v _ Hx) in Hx2.
    injection Hx2 as <-. cbn [w set_view] in Hw2. rewrite Hw in Hw2. injection Hw2 as <-.
    cbn [p set_view] in Hlt. rewrite Hmin, Hmax in Hlt.
    unfold slack_ge, Int.ge_double in Hge. unfold Int.lt_double in Hlt.
    apply leb_not_ltb in Hge. congruence. }
  split; [reflexivity | split; [exact Hnot |]].
  intros Htrue. destruct (status_selected _ Htrue) as (Hle & Hsel & _).
  cbn [start set_view] in Hle.
  destruct (Nat.eq_dec (start (snd (status (set_view b (Z.to_nat (pos d)) (u :: v1)))))
                       (start b)) as [Heq | Hneq]; [| lia].
  rewrite Heq in Hsel. contradiction.
Qed.

(** X4: when some value [k0] of the domain of [x[start]] passes the
    test of [choice], so that its loop assigns [split_point], the first
    alternative of the description [choice] returns settles the
    variable: the commit succeeds, and in the brancher it leaves the
    variable at the cached position is no longer one [status] selects,
    so the next [status] that answers true has moved the cache forward. *)
Theorem first_alternative_settles (b : IntervalBrancher) (v : IntView) (wi k0 : Z) :
  wf b ->
  nth_error (x b) (start b) = Some v -> nth_error (w b) (start b) = Some wi ->
  In k0 (values v) ->
  Int.ge_double (Int.sub (Int.add (min v) wi) k0)
                (PrimFloat.mul (p b) (Int.to_double wi)) = true ->
  exists d b',
    choice b = Some d
    /\ commit b d 0 = Some (ES_OK, b')
    /\ ~ selected_at b' (start b)
    /\ (fst (status b') = true -> (start b < start (snd (status b')))%nat).
Proof.
  intros Hwf Hx Hw Hin Hge.
  destruct (choice_passing b v wi k0 Hwf Hx Hw Hin Hge) as (d & Hd & _).
  destruct (settles_after_choice b d Hwf Hd) as (b' & Hcommit & Hnot & Hnext).
  exists d, b'. split; [exact Hd | split; [exact Hcommit | split; [exact Hnot | exact Hnext]]].
Qed.

(** After [status] has answered true, both alternatives of a
    description whose split point the loop of [choice] assigned leave
    the variable some values, and strictly fewer than it had. *)
Lemma narrow_after_choice (b0 b : IntervalBrancher) (d : Description) (v : IntView) :
  wf b0 -> status b0 = (true, b) -> choice b = Some d ->
  nth_error (x b) (start b) = Some v ->
  (0 < length (left_values (commit b d 0) (start b)) < length v)%nat
  /\ (0 < length (left_values (commit b d 1) (start b)) < length v)%nat.
Proof.
  intros Hwf0 Hstatus Hd Hx.
  assert (Htrue : fst (status b0) = true) by (rewrite Hstatus; reflexivity).
  assert (Hb : snd (status b0) = b) by (rewrite Hstatus; reflexivity).
  assert (Hwf : wf b) by (rewrite <- Hb; now apply wf_status).
  destruct (choice_split_in b d Hwf Hd) as (v1 & wi & Hx1 & Hw & Hpos & Hin & Hge).
  rewrite Hx in Hx1. injection Hx1 as <-.
  destruct (wf_view _ _ _ Hwf Hx) as (Hne & Hsorted & _).
  assert (Hsel : selects (p b) v wi = true).
  { destruct (status_selected b0 Htrue) as (_ & Hsel & _). rewrite Hb in Hsel.
    destruct (status_true_inv b0 Htrue) as (j & _ & Hset). rewrite Hb in Hset.
    apply selects_selected_at in Hsel as (v' & wi' & Hx' & Hw' & Hs).
    clear Hstatus Hb Hwf Hd Hpos. subst b. simpl in *. congruence. }
  pose proof (selects_not_slack_ge_max _ _ _ Hsel) as Hmax.
  assert (Hlt : split_point d < max v).
  { pose proof (sorted_le_last v Hsorted _ Hin) as Hlast. unfold max in *.
    assert (split_point d <> last v 0) by (intros Heq; rewrite Heq in Hge; congruence). lia. }
  assert (Hx' : nth_error (x b) (Z.to_nat (pos d)) = Some v)
    by (rewrite Hpos, Nat2Z.id; exact Hx).
  assert (Hstart : start b = Z.to_nat (pos d)) by (rewrite Hpos, Nat2Z.id; reflexivity).
  rewrite Hstart.
  rewrite (commit_lq_values b d v ltac:(lia) Hx').
  rewrite (commit_gr_values b d v 1 ltac:(lia) ltac:(lia) Hx').
  pose proof (last_In v Hne) as Hmaxin. fold (max v) in Hmaxin.
  split; split.
  - assert (Hk : In (split_point d) (filter (fun u => u <=? split_point d) v))
      by (apply filter_In; split; [exact Hin | apply Z.leb_refl]).
    destruct (filter (fun u => u <=? split_point d) v); [destruct Hk | simpl; lia].
  - apply filter_length_lt with (max v); [exact Hmaxin | apply Z.leb_gt; lia].
  - assert (Hk : In (max v) (filter (fun u => split_point d <? u) v))
      by (apply filter_In; split; [exact Hmaxin | apply Z.ltb_lt; lia]).
    destruct (filter (fun u => split_point d <? u) v); [destruct Hk | simpl; lia].
  - apply filter_length_lt with (split_point d); [exact Hin | apply Z.ltb_irrefl].
Qed.

(** X5: after [status] has answered true, when some value [k0] of the
    domain of [x[start]] passes the test of [choice], so that its loop
    assigns [split_point], both alternatives of the description
    [choice] returns make progress: each leaves the variable some
    values, and strictly fewer than it had. *)
Theorem alternatives_narrow (b0 b : IntervalBrancher) (v : IntView) (wi k0 : Z) :
  wf b0 -> status b0 = (true, b) ->
  nth_error (x b) (start b) = Some v -> nth_error (w b) (start b) = Some wi ->
  In k0 (values v) ->
  Int.ge_double (Int.sub (Int.add (min v) wi) k0)
                (PrimFloat.mul (p b) (Int.to_double wi)) = true ->
  exists d,
    choice b = Some d
    /\ (0 < length (left_values (commit b d 0) (start b)) < length v)%nat
    /\ (0 < length (left_values (commit b d 1) (start b)) < length v)%nat.
Proof.
  intros Hwf0 Hstatus Hx Hw Hin Hge.
  assert (Hwf : wf b)
    by (pose proof (wf_status b0 Hwf0) as H; rewrite Hstatus in H; exact H).
  destruct (choice_passing b v wi k0 Hwf Hx Hw Hin Hge) as (d & Hd & _).
  exists d. split; [exact Hd |].
  exact (narrow_after_choice b0 b d v Hwf0 Hstatus Hd Hx).
Qed.

(** ** The cache of [status] *)

Lemma wrap_in_range (z : Z) : Int.in_range z -> Int.wrap z = z.
Proof.
  unfold Int.in_range, Int.min_int, Int.max_int, Int.wrap. intros Hz.
  rewrite Z.mod_small; lia.
Qed.

(** Within bounds that fit, the slack is the integer [(lo + wi) - hi]. *)
Lemma slack_exact (v : IntView) (wi lo hi : Z) :
  Int.in_range (min v + wi) -> Int.in_range (max v + wi) ->
  Int.in_range (min v + wi - max v) -> Int.in_range (max v + wi - min v) ->
  min v <= lo -> lo <= hi -> hi <= max v ->
  Int.sub (Int.add lo wi) hi = lo + wi - hi /\ Int.in_range (lo + wi - hi).
Proof.
  unfold Int.sub, Int.add. intros H1 H2 H3 H4 Hlo Hmid Hhi.
  assert (Hadd : Int.in_range (lo + wi)) by (unfold Int.in_range in *; lia).
  assert (Hsub : Int.in_range (lo + wi - hi)) by (unfold Int.in_range in *; lia).
  now rewrite (wrap_in_range _ Hadd), (wrap_in_range _ Hsub).
Qed.

(** Narrowing a domain never makes [status] select its variable. *)
Lemma selects_narrowed (p0 : float) (v : IntView) (wi : Z) (f : Z -> bool) :
  dom_ok v -> filter f v <> [] ->
  Int.in_range (min v + wi) -> Int.in_range (max v + wi) ->
  Int.in_range (min v + wi - max v) -> Int.in_range (max v + wi - min v) ->
  selects p0 (filter f v) wi = true -> selects p0 v wi = true.
Proof.
  intros Hv Hne H1 H2 H3 H4 Hsel.
  destruct (filter_bounds f v Hv Hne) as [Hlo Hhi].
  pose proof (filter_dom_ok f v Hv Hne) as (_ & Hsorted' & _).
  assert (Hmid' : min (filter f v) <= max (filter f v)).
  { apply sorted_le_last; [exact Hsorted' |]. now apply min_In. }
  destruct Hv as (Hne0 & Hsorted & _).
  assert (Hmid : min v <= max v).
  { apply sorted_le_last; [exact Hsorted |]. now apply min_In. }
  unfold selects in *. apply andb_true_iff in Hsel as [Hlt Hun].
  apply negb_true_iff in Hun. unfold assigned in *. apply Z.eqb_neq in Hun.
  destruct (slack_exact v wi (min v) (max v) H1 H2 H3 H4) as [E Er]; try lia.
  destruct (slack_exact v wi (min (filter f v)) (max (filter f v)) H1 H2 H3 H4)
    as [E' Er']; try lia.
  apply andb_true_iff. split.
  - unfold Int.lt_double in *. rewrite E. rewrite E' in Hlt.
    apply (DoubleOrder.to_double_ltb_mono _ (min (filter f v) + wi - max (filter f v)));
      auto. lia.
  - apply negb_true_iff, Z.eqb_neq. lia.
Qed.

(** X6: branching keeps the cache of [status] sound.  When the slacks
    are computed without overflow, a commit that succeeds selects no
    variable that was not selected before; so a cache before which
    [status] would select nothing stays one through [status] and
    through [commit]. *)
Theorem commit_keeps_cache (b0 b b' : IntervalBrancher) (d : Description) (a : Z) :
  wf b0 -> widths_fit b0 -> cache_ok b0 ->
  status b0 = (true, b) -> commit b d a = Some (ES_OK, b') ->
  (forall j, selected_at b' j -> selected_at b j)
  /\ cache_ok b /\ cache_ok b'.
Proof.
  intros Hwf0 Hfit0 Hcache0 Hstatus Hcommit.
  assert (Htrue : fst (status b0) = true) by (rewrite Hstatus; reflexivity).
  assert (Hb : snd (status b0) = b) by (rewrite Hstatus; reflexivity).
  destruct (status_true_inv b0 Htrue) as (j0 & _ & Hset). rewrite Hb in Hset.
  assert (Hwf : wf b) by (rewrite <- Hb; now apply wf_status).
  assert (Hfit : widths_fit b) by (rewrite Hset; exact Hfit0).
  assert (Hcache : cache_ok b).
  { destruct (status_selected b0 Htrue) as (_ & _ & Hfirst). rewrite Hb in Hfirst.
    intros j Hj Hsel. assert (Hsel0 : selected_at b0 j) by (rewrite Hset in Hsel; exact Hsel).
    destruct (Nat.lt_ge_cases j (start b0)) as [Hlt | Hge];
      [exact (Hcache0 j Hlt Hsel0) | exact (Hfirst j (conj Hge Hj) Hsel0)]. }
  destruct (commit_some_inv _ _ _ _ Hcommit) as (Hpos & v & Hx).
  rewrite (commit_cases b d a v Hpos Hx) in Hcommit.
  assert (Hi : (Z.to_nat (pos d) < length (x b))%nat) by (apply nth_error_Some; congruence).
  destruct (filter (keeps d a) v) as [| u v'] eqn:Hf; [discriminate |].
  injection Hcommit as <-.
  assert (Hnarrow : forall j, selected_at (set_view b (Z.to_nat (pos d)) (u :: v')) j ->
                              selected_at b j).
  { intros j Hsel. destruct (Nat.eq_dec j (Z.to_nat (pos d))) as [-> | Hne].
    - apply selects_selected_at in Hsel as (v2 & wi & Hx2 & Hw2 & Hs).
      rewrite (nth_error_set_view b _ v _ Hx) in Hx2. injection Hx2 as <-.
      cbn [w p set_view] in Hw2, Hs.
      apply selects_selected_at. exists v, wi. split; [exact Hx | split; [exact Hw2 |]].
      destruct (Hfit _ v wi Hx Hw2) as (H1 & H2 & H3 & H4).
      rewrite <- Hf in Hs. apply (selects_narrowed _ _ _ (keeps d a)); auto.
      + eapply wf_view; eauto.
      + rewrite Hf. discriminate.
    - destruct Hsel as (v2 & wi & Hx2 & Hw2 & Hrest).
      rewrite (set_view_other b _ j _ Hi Hne) in Hx2.
      exists v2, wi. auto. }
  split; [exact Hnarrow | split; [exact Hcache |]].
  intros j Hj Hsel. cbn [start set_view] in Hj. exact (Hcache j Hj (Hnarrow j Hsel)).
Qed.

(** ** Repeated calls of [status] *)

Lemma skipn_nth_error {A : Type} (l : list A) (n : nat) (a : A) :
  nth_error l n = Some a -> skipn n l = a :: skipn (S n) l.
Proof.
  revert l; induction n as [| n IH]; intros [| a' l]; simpl; try discriminate.
  - now intros [= ->].
  - apply IH.
Qed.

(** X9: [status] is stable: asked again on the brancher it left, it
    gives the same answer and leaves the same cache. *)
Theorem status_stable (b : IntervalBrancher) :
  status (snd (status b)) = status b.
Proof.
  unfold status at 2 3.
  destruct (status_scan _ _ _ _) as [j |] eqn:Hscan; cbn [snd];
    [| unfold status; now rewrite Hscan].
  destruct (status_scan_some _ _ _ _ _ Hscan) as (n & v & wi & -> & Hx & Hw & Hs & _).
  rewrite nth_error_skipn in Hx. rewrite nth_error_skipn in Hw.
  unfold status. cbn [x w p start set_start].
  rewrite (skipn_nth_error _ _ _ Hx), (skipn_nth_error _ _ _ Hw).
  cbn [status_scan]. rewrite Hs. reflexivity.
Qed.

(** ** Archives that [choice] reads *)

Lemma to_of_unsigned (u : Z) :
  0 <= u < 4294967296 -> Int.to_unsigned (Int.of_unsigned u) = u.
Proof.
  unfold Int.to_unsigned, Int.of_unsigned, Int.wrap. intros Hu.
  rewrite Zminus_mod_idemp_l.
  replace (u + 2147483648 - 2147483648) with u by lia.
  apply Z.mod_small. lia.
Qed.

(** X7: [choice(const Space&, Archive&)] has a result exactly when the
    archive holds three words or more; the description it then builds,
    archived in turn, gives back the identity of the brancher followed
    by the three words it was read from. *)
Theorem choice_archive_words (b : IntervalBrancher) (e : Archive) :
  (choice_archive b e = None <-> (length e < 3)%nat)
  /\ forall d, choice_archive b e = Some d ->
               Forall (fun u => 0 <= u < 4294967296) (firstn 3 e) ->
               archive d [] = id b :: firstn 3 e.
Proof.
  unfold choice_archive, get_int, get.
  destruct e as [| u1 [| u2 [| u3 rest]]]; cbn [length firstn];
    try (split; [split; [intros _; lia | reflexivity] | discriminate]).
  split; [split; [discriminate | lia] |].
  intros d [= <-] Hwords.
  apply Forall_cons_iff in Hwords as [H1 Hwords].
  apply Forall_cons_iff in Hwords as [H2 Hwords].
  apply Forall_cons_iff in Hwords as [H3 _].
  unfold archive, Choice_archive, put_int, put. cbn [new_Description choice_id split_point alt pos app].
  rewrite !to_of_unsigned; auto.
  rewrite to_of_unsigned by exact H2. exact H2.
Qed.

(** ** The brancher [interval] posts *)

(** X8: in a space that has not failed, with as many widths as views,
    [interval] posts behind the branchers already there one brancher
    with the views, widths and percentage it was given and the cache at
    0; it satisfies the invariant, its cache is sound, and its first
    [status] answers true exactly when some variable is selected. *)
Theorem interval_posts_brancher (home : Space) (x0 : list IntView) (w0 : list Z)
    (p0 : float) :
  failed home = false -> length x0 = length w0 ->
  Forall dom_ok x0 -> Z.of_nat (length x0) <= Int.max_int ->
  exists b,
    interval home x0 w0 p0
      = inr {| failed := false; branchers := branchers home ++ [b] |}
    /\ x b = x0 /\ w b = w0 /\ p b = p0 /\ start b = 0%nat
    /\ wf b /\ cache_ok b
    /\ (fst (status b) = true <-> exists i, selected_at b i).
Proof.
  intros Hlive Hlen Hdoms Hsize.
  set (b := {| id := Z.of_nat (length (branchers home)); x := x0; w := w0; p := p0;
               start := 0 |}).
  assert (Hwf : wf b) by (unfold wf, b; cbn; auto).
  exists b. split; [| repeat split; auto].
  - unfold interval. rewrite Hlen, Nat.eqb_refl, Hlive. cbn [negb].
    unfold post. now rewrite map_id, Hlive.
  - intros j Hj. cbn in Hj. lia.
  - intros Htrue. destruct (status_selected b Htrue) as (_ & Hsel & _). eauto.
  - intros (i & Hsel). destruct (fst (status b)) eqn:Hst; [reflexivity |].
    destruct (status_false_none b Hwf Hst i ltac:(cbn; lia) Hsel).
Qed.

(** ** When [choice] assigns no split point *)

(** X10: [choice] reads [split_point] without having assigned it, and
    so has no defined result, exactly when no value of the domain of
    [x[start]] passes its test. *)
Theorem choice_unassigned (b : IntervalBrancher) (v : IntView) (wi : Z) :
  wf b ->
  nth_error (x b) (start b) = Some v -> nth_error (w b) (start b) = Some wi ->
  (choice b = None <->
   forall k, In k (values v) ->
             Int.ge_double (Int.sub (Int.add (min v) wi) k)
                           (PrimFloat.mul (p b) (Int.to_double wi)) = false).
Proof.
  intros Hwf Hx Hw. unfold choice. rewrite Hx, Hw.
  destruct (wf_view _ _ _ Hwf Hx) as (_ & Hsorted & _).
  pose proof (choice_loop_sorted (p b) v wi (values v) Hsorted None) as Hloop.
  destruct (choice_loop (p b) v wi (values v) None) as [k |].
  - split; [discriminate | intros Hnone].
    destruct Hloop as [(Hin & Hge & _) | (Hsp & _)]; [| discriminate].
    unfold slack_ge in Hge. rewrite (Hnone k Hin) in Hge. discriminate.
  - split; [intros _ | reflexivity]. exact (proj2 Hloop).
Qed.

(** ** The theorems at the scenario of the specification *)

Ltac scenario_facts :=
  assert (Hwf : wf scenario) by scenario_wf;
  assert (Hstatus : status scenario = (true, scenario)) by (vm_compute; reflexivity);
  assert (Hchoice : choice scenario = Some scenario_choice) by (vm_compute; reflexivity);
  assert (Hcommit : commit scenario scenario_choice 0 = Some (ES_OK, scenario_left))
    by (vm_compute; reflexivity);
  assert (Hx : nth_error (x scenario) (start scenario) = Some [0; 1; 2; 3; 4; 5; 6; 7; 8; 9; 10])
    by reflexivity;
  assert (Hw : nth_error (w scenario) (start scenario) = Some 4) by reflexivity.

(** The first alternative of the scenario keeps the invariant. *)
Lemma commit_keeps_invariant_witness :
  wf scenario /\ commit scenario scenario_choice 0 = Some (ES_OK, scenario_left)
  /\ wf scenario_left /\ length (x scenario_left) = length (x scenario).
Proof.
  scenario_facts.
  pose proof (commit_keeps_invariant scenario scenario_left scenario_choice 0 Hwf Hcommit)
    as (Hwf' & Hlen & _).
  split; [exact Hwf | split; [exact Hcommit | split; [exact Hwf' | exact Hlen]]].
Defined.

(** In the scenario the split point 2 is neither below 0 nor at least 10. *)
Lemma commit_failure_witness :
  wf scenario /\ 0 <= pos scenario_choice
  /\ ((exists b', commit scenario scenario_choice 1 = Some (ES_FAILED, b'))
      <-> max [0; 1; 2; 3; 4; 5; 6; 7; 8; 9; 10] <= split_point scenario_choice).
Proof.
  scenario_facts.
  assert (Hpos : 0 <= pos scenario_choice) by (cbn; lia).
  split; [exact Hwf | split; [exact Hpos |]].
  exact (proj1 (commit_failure scenario scenario_choice 1 _ Hwf Hpos Hx)).
Defined.

(** The first alternative of the scenario, committed twice. *)
Lemma commit_narrows_once_witness :
  commit scenario scenario_choice 0 = Some (ES_OK, scenario_left)
  /\ commit scenario_left scenario_choice 0 = Some (ES_OK, scenario_left).
Proof.
  scenario_facts. split; [exact Hcommit |].
  exact (proj2 (commit_narrows_once scenario scenario_left scenario_choice 0 Hcommit)).
Defined.

(** The first alternative of the scenario settles its variable: the
    value 0 passes the test. *)
Lemma first_alternative_settles_witness :
  wf scenario
  /\ exists d b',
      choice scenario = Some d
      /\ commit scenario d 0 = Some (ES_OK, b')
      /\ ~ selected_at b' (start scenario)
      /\ (fst (status b') = true -> (start scenario < start (snd (status b')))%nat).
Proof.
  scenario_facts. split; [exact Hwf |].
  apply (first_alternative_settles scenario _ 4 0 Hwf Hx Hw);
    [simpl; auto | vm_compute; reflexivity].
Defined.

(** Both alternatives of the scenario narrow the eleven values. *)
Lemma alternatives_narrow_witness :
  wf scenario /\ status scenario = (true, scenario)
  /\ exists d,
      choice scenario = Some d
      /\ (0 < length (left_values (commit scenario d 0) (start scenario)) < 11)%nat
      /\ (0 < length (left_values (commit scenario d 1) (start scenario)) < 11)%nat.
Proof.
  scenario_facts.
  split; [exact Hwf | split; [exact Hstatus |]].
  apply (alternatives_narrow scenario scenario _ 4 0 Hwf Hstatus Hx Hw);
    [simpl; auto | vm_compute; reflexivity].
Defined.

(** The scenario computes its slack without overflow, and its cache is sound. *)
Lemma commit_keeps_cache_witness :
  wf scenario /\ widths_fit scenario /\ cache_ok scenario
  /\ status scenario = (true, scenario)
  /\ commit scenario scenario_choice 0 = Some (ES_OK, scenario_left)
  /\ cache_ok scenario_left.
Proof.
  scenario_facts.
  assert (Hfit : widths_fit scenario).
  { intros [| [| i]] v wi; cbn; try discriminate. intros [= <-] [= <-].
    unfold Int.in_range, Int.min_int, Int.max_int, min, max. cbn. lia. }
  assert (Hcache : cache_ok scenario) by (intros j Hj; cbn in Hj; lia).
  split; [exact Hwf | split; [exact Hfit | split; [exact Hcache |
    split; [exact Hstatus | split; [exact Hcommit |]]]]].
  exact (proj2 (proj2 (commit_keeps_cache scenario scenario scenario_left scenario_choice 0
                         Hwf Hfit Hcache Hstatus Hcommit))).
Defined.

(** Posting the scenario into an empty space. *)
Lemma interval_posts_brancher_witness :
  exists b,
    interval {| failed := false; branchers := [] |} (x scenario) (w scenario) (p scenario)
      = inr {| failed := false; branchers := [] ++ [b] |}
    /\ x b = x scenario /\ w b = w scenario /\ p b = p scenario /\ start b = 0%nat
    /\ wf b /\ cache_ok b
    /\ (fst (status b) = true <-> exists i, selected_at b i).
Proof.
  scenario_facts.
  assert (Hdoms : Forall dom_ok (x scenario)) by (exact (proj2 (proj2 Hwf))).
  assert (Hsize : Z.of_nat (length (x scenario)) <= Int.max_int)
    by (exact (proj1 (proj2 Hwf))).
  exact (interval_posts_brancher {| failed := false; branchers := [] |}
           (x scenario) (w scenario) (p scenario) eq_refl eq_refl Hdoms Hsize).
Defined.

(** In the scenario some value passes the test, and [choice] has a result. *)
Lemma choice_unassigned_witness :
  wf scenario
  /\ (choice scenario = None <->
      forall k, In k (values [0; 1; 2; 3; 4; 5; 6; 7; 8; 9; 10]) ->
                Int.ge_double (Int.sub (Int.add (min [0; 1; 2; 3; 4; 5; 6; 7; 8; 9; 10]) 4) k)
                              (PrimFloat.mul (p scenario) (Int.to_double 4)) = false).
Proof.
  scenario_facts. split; [exact Hwf |].
  exact (choice_unassigned scenario _ 4 Hwf Hx Hw).
Defined.

End IntervalSearch.

(** * The still-life model as a whole *)

Module StillLifeModel.
Import StillLife StillLifeFacts.

(** ** Cells of the board *)

Lemma In_slice (bs fc tc fr tr : Z) (v : Var) :
  In v (slice bs fc tc fr tr) <->
  exists c r, v = matrix bs c r /\ fc <= c < tc /\ fr <= r < tr.
Proof.
  unfold slice. rewrite in_flat_map. split.
  - intros (r & Hr & Hin). apply in_map_iff in Hin as (c & <- & Hc).
    apply In_range in Hr, Hc. now exists c, r.
  - intros (c & r & -> & Hc & Hr). exists r. split; [now apply In_range |].
    apply in_map_iff. exists c. split; [reflexivity | now apply In_range].
Qed.

Lemma cell_index_in_board (bs c r : Z) :
  0 <= c < bs -> 0 <= r < bs -> 0 <= r * bs + c < bs * bs.
Proof. intros Hc Hr. nia. Qed.

(** What the constructor posts before its loops stays posted. *)
Lemma posted_before_loops (size : Z) (c : Constraint) :
  In c (map (fun v => dom v 0 1) (map cells_at (range 0 ((size + 4) * (size + 4))))
        ++ map (fun v => dom v 0 6) (map sliceOfMDP_at (range 0 (blocks size)))
        ++ [ dom noOfLives_var 0 (size ^ 2) ])
  \/ In c [ rel_lin (LE_sum (map cells_at (range 0 ((size + 4) * (size + 4)))))
              IRT_EQ (LE_var noOfLives_var);
            linear (slice (size + 4) 0 2 0 (size + 4)) IRT_EQ 0;
            linear (slice (size + 4) (size + 4 - 2) (size + 4) 0 (size + 4)) IRT_EQ 0;
            linear (slice (size + 4) 2 (size + 4 - 2) 0 2) IRT_EQ 0;
            linear (slice (size + 4) 2 (size + 4 - 2) (size + 4 - 2) (size + 4)) IRT_EQ 0 ] ->
  In c (posted (new_MaximumDensityStillLife size)).
Proof.
  intros Hin. unfold new_MaximumDensityStillLife.
  set (st0 := (_ ++ _, 0)).
  pose proof (cols_keep (size + 4) (range 2 (size + 4 - 2)) st0 c) as Hkeep.
  destruct (fold_left _ _ st0) as [cs blockNo]. cbn [fst posted] in *.
  apply Hkeep. unfold st0. cbn [fst]. rewrite !in_app_iff in *. tauto.
Qed.

(** In a solution every cell of the board is 0 or 1. *)
Lemma cell_is_bool (size : Z) (a : Assignment) (c r : Z) :
  solution (new_MaximumDensityStillLife size) a = true ->
  0 <= c < size + 4 -> 0 <= r < size + 4 ->
  0 <= a (matrix (size + 4) c r) <= 1.
Proof.
  intros Hsol Hc Hr.
  assert (Hdom : In (dom (matrix (size + 4) c r) 0 1)
                    (posted (new_MaximumDensityStillLife size))).
  { apply posted_before_loops. left. rewrite in_app_iff. left.
    apply in_map_iff. exists (matrix (size + 4) c r). split; [reflexivity |].
    apply in_map_iff. exists (r * (size + 4) + c). split; [reflexivity |].
    apply In_range. now apply cell_index_in_board. }
  pose proof (solution_holds _ _ _ Hsol Hdom) as Hholds. cbn [holds] in Hholds.
  apply andb_true_iff in Hholds as [Hlo Hhi]. lia.
Qed.

Lemma sum_zero_all (a : Assignment) (vs : list Var) :
  (forall v, In v vs -> 0 <= a v) -> sum_of a vs = 0 -> forall v, In v vs -> a v = 0.
Proof.
  induction vs as [| v0 vs IH]; intros Hpos Hsum v Hin; [destruct Hin |].
  simpl in Hsum.
  assert (Hrest : 0 <= sum_of a vs).
  { clear IH Hsum Hin. induction vs as [| v1 vs IH]; simpl; [lia |].
    assert (0 <= a v1) by (apply Hpos; right; now left).
    assert (0 <= sum_of a vs) by (apply IH; intros v' Hv'; apply Hpos;
                                  destruct Hv'; [now left | right; now right]).
    unfold sum_of in *. lia. }
  assert (H0 : 0 <= a v0) by (apply Hpos; now left).
  destruct Hin as [<- | Hin]; [unfold sum_of in *; lia |].
  apply IH; auto; [intros v' Hv'; apply Hpos; now right | unfold sum_of in *; lia].
Qed.

(** The border of two cells is empty in a solution. *)
Lemma border_cell_dead (size : Z) (a : Assignment) (c r : Z) :
  0 <= size ->
  solution (new_MaximumDensityStillLife size) a = true ->
  0 <= c < size + 4 -> 0 <= r < size + 4 ->
  ~ (2 <= c < size + 2 /\ 2 <= r < size + 2) ->
  a (matrix (size + 4) c r) = 0.
Proof.
  intros Hsize Hsol Hc Hr Hborder.
  assert (Hslices : forall fc tc fr tr,
             0 <= fc -> tc <= size + 4 -> 0 <= fr -> tr <= size + 4 ->
             In (linear (slice (size + 4) fc tc fr tr) IRT_EQ 0)
                (posted (new_MaximumDensityStillLife size)) ->
             fc <= c < tc -> fr <= r < tr -> a (matrix (size + 4) c r) = 0).
  { intros fc tc fr tr Hfc Htc Hfr Htr Hposted Hcin Hrin.
    pose proof (solution_holds _ _ _ Hsol Hposted) as Hholds.
    cbn [holds irt_holds] in Hholds. apply Z.eqb_eq in Hholds.
    apply (sum_zero_all a (slice (size + 4) fc tc fr tr)); auto.
    - intros v Hv. apply In_slice in Hv as (c' & r' & -> & Hc' & Hr').
      apply (cell_is_bool size a c' r' Hsol); lia.
    - apply In_slice. now exists c, r. }
  destruct (Z.lt_ge_cases c 2) as [Hc2 | Hc2].
  { apply (Hslices 0 2 0 (size + 4)); try lia.
    apply posted_before_loops. right. simpl. tauto. }
  destruct (Z.lt_ge_cases c (size + 4 - 2)) as [Hc3 | Hc3].
  2:{ apply (Hslices (size + 4 - 2) (size + 4) 0 (size + 4)); try lia.
      apply posted_before_loops. right. simpl. tauto. }
  destruct (Z.lt_ge_cases r 2) as [Hr2 | Hr2].
  { apply (Hslices 2 (size + 4 - 2) 0 2); try lia.
    apply posted_before_loops. right. simpl. tauto. }
  destruct (Z.lt_ge_cases r (size + 4 - 2)) as [Hr3 | Hr3]; [lia |].
  apply (Hslices 2 (size + 4 - 2) (size + 4 - 2) (size + 4)); try lia.
  apply posted_before_loops. right. simpl. tauto.
Qed.

(** X11: in every solution every cell of the board is 0 or 1, and the
    border of two cells around the pattern is empty: a cell of the
    board that is not an interior cell is dead. *)
Theorem border_is_empty (size : Z) (a : Assignment) (c r : Z) :
  0 <= size ->
  solution (new_MaximumDensityStillLife size) a = true ->
  0 <= c < size + 4 -> 0 <= r < size + 4 ->
  0 <= a (matrix (size + 4) c r) <= 1
  /\ (~ interior (new_MaximumDensityStillLife size) c r ->
      a (matrix (size + 4) c r) = 0).
Proof.
  intros Hsize Hsol Hc Hr. split; [now apply cell_is_bool |].
  unfold interior. rewrite board_size_new. intros Hborder.
  apply border_cell_dead; auto. lia.
Qed.

(** X12: in every solution a live interior cell has exactly two or
    exactly three live neighbours. *)
Theorem live_cell_has_two_or_three (size col row : Z) (a : Assignment) :
  solution (new_MaximumDensityStillLife size) a = true ->
  interior (new_MaximumDensityStillLife size) col row ->
  a (matrix (size + 4) col row) = 1 ->
  live_neighbours (new_MaximumDensityStillLife size) a col row = 2
  \/ live_neighbours (new_MaximumDensityStillLife size) a col row = 3.
Proof.
  intros Hsol Hint Hlive.
  assert (Hposted : forall c, In c (still_life_constraints (size + 4) col row) ->
                              holds a c = true).
  { intros c Hc. apply (solution_holds _ _ _ Hsol).
    now apply (posted_still_life size col row). }
  unfold live_neighbours. rewrite board_size_new.
  pose proof (Hposted _ (or_introl eq_refl)) as H2.
  pose proof (Hposted _ (or_intror (or_introl eq_refl))) as H3.
  pose proof (Hposted _ (or_intror (or_intror (or_introl eq_refl)))) as Hor.
  pose proof (Hposted _ (or_intror (or_intror (or_intror (or_introl eq_refl))))) as Himp.
  cbn [holds eval_bool irt_holds] in H2, H3, Hor, Himp. unfold truth in *.
  rewrite Hlive in Himp. cbn in Himp. rewrite Himp in Hor.
  destruct (sum_of a (getNeighbours (size + 4) col row) =? 2) eqn:E2;
    [apply Z.eqb_eq in E2; now left |].
  destruct (sum_of a (getNeighbours (size + 4) col row) =? 3) eqn:E3;
    [apply Z.eqb_eq in E3; now right |].
  destruct (a (two_neighbours col row) =? 1), (a (three_neighbours col row) =? 1);
    discriminate.
Qed.

(** ** The cells next to the border *)

Lemma col_body_posts_limits (bs col : Z) (st : list Constraint * Z) (c : Constraint) :
  In c (inner_border_limits bs col) -> In c (fst (col_body bs st col)).
Proof.
  intros Hin. unfold col_body.
  destruct (fold_left _ _ st) as [cs blockNo]. cbn [fst].
  rewrite in_app_iff. now right.
Qed.

Lemma cols_post_limits (bs col : Z) (cols : list Z) :
  forall (st : list Constraint * Z) (c : Constraint),
    In col cols -> In c (inner_border_limits bs col) ->
    In c (fst (fold_left (col_body bs) cols st)).
Proof.
  induction cols as [| col' cols IH]; intros st c Hcol Hin; simpl; [destruct Hcol |].
  destruct Hcol as [-> | Hcol].
  - apply cols_keep. now apply col_body_posts_limits.
  - now apply IH.
Qed.

Lemma posted_limits (size col : Z) (c : Constraint) :
  2 <= col < size + 2 -> In c (inner_border_limits (size + 4) col) ->
  In c (posted (new_MaximumDensityStillLife size)).
Proof.
  intros Hcol Hin. unfold new_MaximumDensityStillLife.
  set (st0 := (_ ++ _, 0)).
  pose proof (cols_post_limits (size + 4) col (range 2 (size + 4 - 2)) st0 c) as Hpost.
  destruct (fold_left _ _ st0) as [cs blockNo]. cbn [fst posted] in *.
  apply Hpost; [apply In_range; lia | exact Hin].
Qed.

Lemma range_one (lo hi : Z) : hi = lo + 1 -> range lo hi = [lo].
Proof.
  intros ->. unfold range. replace (lo + 1 - lo) with 1 by lia. simpl.
  now rewrite Z.add_0_r.
Qed.

Lemma range_three (lo : Z) : range lo (lo + 3) = [lo; lo + 1; lo + 2].
Proof.
  unfold range. replace (lo + 3 - lo) with 3 by lia. simpl. now rewrite Z.add_0_r.
Qed.

(** Three cells in a row along a column, or along a row. *)
Lemma sum_slice_column (a : Assignment) (bs c tc r : Z) :
  tc = c + 1 ->
  sum_of a (slice bs c tc r (r + 3))
  = a (matrix bs c r) + a (matrix bs c (r + 1)) + a (matrix bs c (r + 2)).
Proof.
  intros Htc. unfold slice. rewrite range_three, (range_one c tc Htc). simpl. lia.
Qed.

Lemma sum_slice_row (a : Assignment) (bs c r tr : Z) :
  tr = r + 1 ->
  sum_of a (slice bs c (c + 3) r tr)
  = a (matrix bs c r) + a (matrix bs (c + 1) r) + a (matrix bs (c + 2) r).
Proof.
  intros Htr. unfold slice. rewrite range_three, (range_one r tr Htr). simpl. lia.
Qed.

(** Along each side of the pattern no three cells in a row are all live. *)
Lemma side_limits (size : Z) (a : Assignment) (k : Z) :
  solution (new_MaximumDensityStillLife size) a = true ->
  3 <= k <= size + 2 ->
  a (matrix (size + 4) 2 (k - 1)) + a (matrix (size + 4) 2 k)
    + a (matrix (size + 4) 2 (k + 1)) < 3
  /\ a (matrix (size + 4) (k - 1) 2) + a (matrix (size + 4) k 2)
    + a (matrix (size + 4) (k + 1) 2) < 3
  /\ a (matrix (size + 4) (size + 1) (k - 1)) + a (matrix (size + 4) (size + 1) k)
    + a (matrix (size + 4) (size + 1) (k + 1)) < 3
  /\ a (matrix (size + 4) (k - 1) (size + 1)) + a (matrix (size + 4) k (size + 1))
    + a (matrix (size + 4) (k + 1) (size + 1)) < 3.
Proof.
  intros Hsol Hk.
  assert (Hposted : forall c, In c (inner_border_limits (size + 4) (k - 1)) ->
                              holds a c = true).
  { intros c Hc. apply (solution_holds _ _ _ Hsol).
    apply (posted_limits size (k - 1)); [lia | exact Hc]. }
  pose proof (Hposted _ (or_introl eq_refl)) as H1.
  pose proof (Hposted _ (or_intror (or_introl eq_refl))) as H2.
  pose proof (Hposted _ (or_intror (or_intror (or_introl eq_refl)))) as H3.
  pose proof (Hposted _ (or_intror (or_intror (or_intror (or_introl eq_refl))))) as H4.
  cbn [holds irt_holds] in H1, H2, H3, H4.
  rewrite sum_slice_column in H1 by lia. rewrite sum_slice_row in H2 by lia.
  rewrite sum_slice_column in H3 by lia. rewrite sum_slice_row in H4 by lia.
  apply Z.ltb_lt in H1, H2, H3, H4.
  replace (k - 1 + 1) with k in * by lia. replace (k - 1 + 2) with (k + 1) in * by lia.
  replace (size + 4 - 3) with (size + 1) in * by lia.
  auto.
Qed.

(** X13: in every solution a cell next to the pattern, on the ring just
    outside the interior, is dead and has fewer than three live
    neighbours: it stays dead in the next generation. *)
Theorem inner_border_stays_dead (size : Z) (a : Assignment) (c r : Z) :
  0 <= size ->
  solution (new_MaximumDensityStillLife size) a = true ->
  1 <= c <= size + 2 -> 1 <= r <= size + 2 ->
  ~ interior (new_MaximumDensityStillLife size) c r ->
  a (matrix (size + 4) c r) = 0
  /\ live_neighbours (new_MaximumDensityStillLife size) a c r < 3.
Proof.
  intros Hsize Hsol Hc Hr Hring.
  unfold interior in Hring. rewrite board_size_new in Hring.
  split; [apply border_cell_dead; auto; lia |].
  unfold live_neighbours, getNeighbours. rewrite board_size_new. cbn [sum_of fold_right].
  assert (Hb : forall c' r', 0 <= c' < size + 4 -> 0 <= r' < size + 4 ->
                             0 <= a (matrix (size + 4) c' r') <= 1)
    by (intros; now apply cell_is_bool).
  assert (Hz : forall c' r', 0 <= c' < size + 4 -> 0 <= r' < size + 4 ->
                             c' < 2 \/ size + 2 <= c' \/ r' < 2 \/ size + 2 <= r' ->
                             a (matrix (size + 4) c' r') = 0)
    by (intros; apply border_cell_dead; auto; lia).
  pose proof (Hb (c - 1) (r - 1) ltac:(lia) ltac:(lia)) as B1.
  pose proof (Hb c (r - 1) ltac:(lia) ltac:(lia)) as B2.
  pose proof (Hb (c + 1) (r - 1) ltac:(lia) ltac:(lia)) as B3.
  pose proof (Hb (c - 1) r ltac:(lia) ltac:(lia)) as B4.
  pose proof (Hb (c + 1) r ltac:(lia) ltac:(lia)) as B5.
  pose proof (Hb (c - 1) (r + 1) ltac:(lia) ltac:(lia)) as B6.
  pose proof (Hb c (r + 1) ltac:(lia) ltac:(lia)) as B7.
  pose proof (Hb (c + 1) (r + 1) ltac:(lia) ltac:(lia)) as B8.
  pose proof (Hz (c - 1) (r - 1) ltac:(lia) ltac:(lia)) as Z1.
  pose proof (Hz c (r - 1) ltac:(lia) ltac:(lia)) as Z2.
  pose proof (Hz (c + 1) (r - 1) ltac:(lia) ltac:(lia)) as Z3.
  pose proof (Hz (c - 1) r ltac:(lia) ltac:(lia)) as Z4.
  pose proof (Hz (c + 1) r ltac:(lia) ltac:(lia)) as Z5.
  pose proof (Hz (c - 1) (r + 1) ltac:(lia) ltac:(lia)) as Z6.
  pose proof (Hz c (r + 1) ltac:(lia) ltac:(lia)) as Z7.
  pose proof (Hz (c + 1) (r + 1) ltac:(lia) ltac:(lia)) as Z8.
  pose proof (side_limits size a r Hsol) as Lr.
  pose proof (side_limits size a c Hsol) as Lc.
  destruct (Z.eq_dec c 1) as [Hc1 | Hc1].
  { (* left of the pattern: the three cells of column 2 *)
    rewrite Z1, Z2, Z4, Z6, Z7 by lia.
    destruct (Z_le_gt_dec 3 r) as [Hlo | Hlo]; [| rewrite Z3 by lia; lia].
    destruct (Z_le_gt_dec r size) as [Hhi | Hhi]; [| rewrite Z8 by lia; lia].
    destruct (Lr ltac:(lia)) as (L & _). replace (c + 1) with 2 by lia. lia. }
  destruct (Z.eq_dec c (size + 2)) as [Hc2 | Hc2].
  { (* right of the pattern: the three cells of column size+1 *)
    rewrite Z2, Z3, Z5, Z7, Z8 by lia.
    destruct (Z_le_gt_dec 3 r) as [Hlo | Hlo]; [| rewrite Z1 by lia; lia].
    destruct (Z_le_gt_dec r size) as [Hhi | Hhi]; [| rewrite Z6 by lia; lia].
    destruct (Lr ltac:(lia)) as (_ & _ & L & _). replace (c - 1) with (size + 1) by lia. lia. }
  destruct (Z.eq_dec r 1) as [Hr1 | Hr1].
  { (* above the pattern: the three cells of row 2 *)
    rewrite Z1, Z2, Z3, Z4, Z5 by lia.
    destruct (Z_le_gt_dec 3 c) as [Hlo | Hlo]; [| rewrite Z6 by lia; lia].
    destruct (Z_le_gt_dec c size) as [Hhi | Hhi]; [| rewrite Z8 by lia; lia].
    destruct (Lc ltac:(lia)) as (_ & L & _). replace (r + 1) with 2 by lia. lia. }
  (* below the pattern: the three cells of row size+1 *)
  assert (Hr2 : r = size + 2) by lia.
  rewrite Z4, Z5, Z6, Z7, Z8 by lia.
  destruct (Z_le_gt_dec 3 c) as [Hlo | Hlo]; [| rewrite Z1 by lia; lia].
  destruct (Z_le_gt_dec c size) as [Hhi | Hhi]; [| rewrite Z3 by lia; lia].
  destruct (Lc ltac:(lia)) as (_ & _ & _ & L). replace (r - 1) with (size + 1) by lia. lia.
Qed.

(** ** Constraining by a solution *)

(** X14: being a solution of the space constrained by another is a
    strict order on solutions: such a solution is a solution of the
    space itself, no solution is one of the space constrained by
    itself, and the relation is transitive. *)
Theorem constrain_is_strict (sp : MaximumDensityStillLife) (s1 s2 s3 : Assignment) :
  (solution (constrain sp s1) s2 = true -> solution sp s2 = true)
  /\ solution (constrain sp s1) s1 = false
  /\ (solution (constrain sp s1) s2 = true -> solution (constrain sp s2) s3 = true ->
      solution (constrain sp s1) s3 = true).
Proof.
  split; [| split].
  - intros H. now apply solution_constrain in H.
  - destruct (solution (constrain sp s1) s1) eqn:H; [| reflexivity].
    apply solution_constrain in H. lia.
  - intros H12 H23. apply solution_constrain in H12, H23. apply solution_constrain.
    split; [tauto | lia].
Qed.

(** X15: constraining a space that is already constrained by [s1] once
    more, by a solution [s2] of it, leaves the solutions of the space
    constrained by [s2] alone: the older bound is subsumed. *)
Theorem constrain_twice (sp : MaximumDensityStillLife) (s1 s2 a : Assignment) :
  solution (constrain sp s1) s2 = true ->
  solution (constrain (constrain sp s1) s2) a = solution (constrain sp s2) a.
Proof.
  intros H12. apply solution_constrain in H12 as (_ & Hl & Hd).
  apply eq_true_iff_eq. rewrite !solution_constrain.
  unfold lives, density in *. cbn [noOfLives sliceOfMDP constrain] in *.
  split; [tauto | intros (Hsol & Hl2 & Hd2)].
  repeat split; auto; lia.
Qed.

Lemma noOfLives_new (size : Z) : noOfLives (new_MaximumDensityStillLife size) = noOfLives_var.
Proof. unfold new_MaximumDensityStillLife. now destruct (fold_left _ _ _). Qed.

Lemma lives_in_domain (size : Z) (a : Assignment) :
  solution (new_MaximumDensityStillLife size) a = true ->
  0 <= lives (new_MaximumDensityStillLife size) a <= size ^ 2.
Proof.
  intros Hsol. unfold lives. rewrite noOfLives_new.
  assert (Hdom : In (dom noOfLives_var 0 (size ^ 2))
                    (posted (new_MaximumDensityStillLife size))).
  { apply posted_before_loops. left. rewrite !in_app_iff. right. right. now left. }
  pose proof (solution_holds _ _ _ Hsol Hdom) as Hholds. cbn [holds] in Hholds.
  apply andb_true_iff in Hholds as [Hlo Hhi]. lia.
Qed.

Lemma improving_length (sp : MaximumDensityStillLife) (n : Z) (ys : list Assignment) :
  Forall (fun y => lives sp y <= n) ys ->
  forall s, lives sp s <= n -> improving sp (Some s) ys ->
            Z.of_nat (length ys) <= n - lives sp s.
Proof.
  induction 1 as [| y ys Hy Hys IH]; intros s Hs Himp.
  - simpl. lia.
  - destruct Himp as [[Hl _] Himp]. specialize (IH y Hy Himp).
    rewrite length_cons, Nat2Z.inj_succ. lia.
Qed.

(** X16: a search that keeps constraining by its last solution ends:
    a sequence of solutions of the model of size [size] in which each
    one improves on the one before it has at most [size^2 + 1] members. *)
Theorem improving_solutions_bounded (size : Z) (ys : list Assignment) :
  Forall (fun y => solution (new_MaximumDensityStillLife size) y = true) ys ->
  improving (new_MaximumDensityStillLife size) None ys ->
  Z.of_nat (length ys) <= size ^ 2 + 1.
Proof.
  intros Hsols Himp.
  assert (Hbound : Forall (fun y => 0 <= lives (new_MaximumDensityStillLife size) y
                                    /\ lives (new_MaximumDensityStillLife size) y <= size ^ 2) ys).
  { eapply Forall_impl; [| exact Hsols]. intros y Hy. now apply lives_in_domain. }
  destruct ys as [| y ys]; [simpl; pose proof (Z.pow_2_r size); nia |].
  destruct Himp as [_ Himp].
  apply Forall_cons_iff in Hbound as [Hy Hbound].
  assert (Hle : Forall (fun y0 => lives (new_MaximumDensityStillLife size) y0 <= size ^ 2) ys)
    by (eapply Forall_impl; [| exact Hbound]; intros y0 Hy0; exact (proj2 Hy0)).
  pose proof (improving_length _ _ ys Hle y (proj2 Hy) Himp) as Hlen.
  rewrite length_cons, Nat2Z.inj_succ. lia.
Qed.

(** ** Bounds of the accesses *)

Lemma fold_left_invariant {A B : Type} (f : A -> B -> A) (P : A -> Prop) (l : list B) :
  (forall a b, In b l -> P a -> P (f a b)) -> forall a, P a -> P (fold_left f l a).
Proof.
  induction l as [| b l IH]; intros Hstep a Ha; simpl; [exact Ha |].
  apply IH; [intros a' b' Hb'; apply Hstep; now right | apply Hstep; [now left | exact Ha]].
Qed.

Lemma var_ok_mono (bs m m' : Z) (v : Var) : m <= m' -> var_ok bs m v -> var_ok bs m' v.
Proof. destruct v; simpl; lia. Qed.

Lemma vars_ok_mono (bs m m' : Z) (cs : list Constraint) :
  m <= m' -> vars_ok bs m cs -> vars_ok bs m' cs.
Proof. intros Hm Hok c v Hc Hv. eapply var_ok_mono; eauto. Qed.

Lemma vars_ok_app (bs m : Z) (cs cs' : list Constraint) :
  vars_ok bs m cs -> vars_ok bs m cs' -> vars_ok bs m (cs ++ cs').
Proof.
  intros H1 H2 c v Hc Hv. apply in_app_iff in Hc as [Hc | Hc]; eauto.
Qed.

Lemma slice_ok (bs m fc tc fr tr : Z) (v : Var) :
  0 <= fc -> tc <= bs -> 0 <= fr -> tr <= bs ->
  In v (slice bs fc tc fr tr) -> var_ok bs m v.
Proof.
  intros Hfc Htc Hfr Htr Hin. apply In_slice in Hin as (c & r & -> & Hc & Hr).
  unfold matrix. simpl. apply cell_index_in_board; lia.
Qed.

Lemma neighbours_ok (bs m col row : Z) (v : Var) :
  1 <= col < bs - 1 -> 1 <= row < bs - 1 ->
  In v (getNeighbours bs col row) -> var_ok bs m v.
Proof.
  intros Hcol Hrow Hin. unfold getNeighbours in Hin. simpl in Hin.
  repeat (destruct Hin as [<- | Hin]; [unfold matrix; simpl; apply cell_index_in_board; lia |]).
  destruct Hin.
Qed.

(** The state of the loops: [blockNo] is not negative, and all that is
    posted mentions variables within bounds, the entries of [sliceOfMDP]
    being below [n] or below [blockNo]. *)
Lemma row_body_ok (bs n col row : Z) (st : list Constraint * Z) :
  2 <= col < bs - 2 -> 2 <= row < bs - 2 ->
  0 <= snd st /\ vars_ok bs (Z.max n (snd st)) (fst st) ->
  0 <= snd (row_body bs col st row)
  /\ vars_ok bs (Z.max n (snd (row_body bs col st row))) (fst (row_body bs col st row)).
Proof.
  intros Hcol Hrow [Hno Hok]. destruct st as [cs blockNo]. cbn [fst snd] in *.
  unfold row_body.
  assert (Hcell : forall m, vars_ok bs m
            ([ dom (two_neighbours col row) 0 1; dom (three_neighbours col row) 0 1;
               dom (still_live col row) 0 1 ] ++ still_life_constraints bs col row)).
  { intros m c v Hc Hv. unfold still_life_constraints in Hc. simpl in Hc.
    repeat (destruct Hc as [<- | Hc];
            [simpl in Hv;
             repeat (destruct Hv as [<- | Hv];
                     [first [ now (simpl; lia)
                            | unfold matrix; simpl; apply cell_index_in_board; lia ] |]);
             try (now destruct Hv);
             try (apply (neighbours_ok bs m col row); [lia | lia | exact Hv]) |]).
    destruct Hc. }
  destruct (aligned col && aligned row) eqn:Hal;
    unfold aligned in Hal; rewrite Hal; cbn [fst snd].
  - split; [lia |]. rewrite <- app_assoc.
    apply vars_ok_app; [eapply vars_ok_mono; [| exact Hok]; lia |].
    apply vars_ok_app; [apply Hcell |].
    intros c v [<- | []] Hv. simpl in Hv. destruct Hv as [<- | Hv]; [simpl; lia |].
    apply (slice_ok bs _ col (col + 3) row (row + 3)); auto; lia.
  - split; [lia |]. apply vars_ok_app; [exact Hok | apply Hcell].
Qed.

Lemma col_body_ok (bs n col : Z) (st : list Constraint * Z) :
  2 <= col < bs - 2 ->
  0 <= snd st /\ vars_ok bs (Z.max n (snd st)) (fst st) ->
  0 <= snd (col_body bs st col)
  /\ vars_ok bs (Z.max n (snd (col_body bs st col))) (fst (col_body bs st col)).
Proof.
  intros Hcol Hst. unfold col_body.
  pose proof (fold_left_invariant (row_body bs col)
                (fun st => 0 <= snd st /\ vars_ok bs (Z.max n (snd st)) (fst st))
                (range 2 (bs - 2))) as Hrows.
  specialize (Hrows (fun st row Hrow => row_body_ok bs n col row st Hcol
                                          (proj1 (In_range _ _ _) Hrow)) st Hst).
  destruct (fold_left _ _ st) as [cs blockNo]. cbn [fst snd] in *.
  destruct Hrows as [Hno Hok]. split; [exact Hno |].
  apply vars_ok_app; [exact Hok |].
  intros c v Hc Hv. simpl in Hc.
  repeat (destruct Hc as [<- | Hc];
          [cbn [vars_of] in Hv; eapply slice_ok; [| | | | exact Hv]; lia |]).
  destruct Hc.
Qed.

(** ** The counter [blockNo] *)

Lemma row_body_blockNo (bs col row : Z) (st : list Constraint * Z) :
  snd (row_body bs col st row)
  = snd st + (if aligned col && aligned row then 1 else 0).
Proof.
  destruct st as [cs blockNo]. unfold row_body, aligned.
  destruct (_ && _); cbn [snd]; lia.
Qed.

Lemma rows_blockNo (bs col : Z) (rows : list Z) :
  forall st : list Constraint * Z,
    snd (fold_left (row_body bs col) rows st)
    = snd st + (if aligned col then Z.of_nat (length (filter aligned rows)) else 0).
Proof.
  induction rows as [| row rows IH]; intros st; simpl.
  - destruct (aligned col); lia.
  - rewrite IH, row_body_blockNo.
    destruct (aligned col), (aligned row); simpl; lia.
Qed.

Lemma col_body_blockNo (bs col : Z) (st : list Constraint * Z) :
  snd (col_body bs st col)
  = snd st + (if aligned col
              then Z.of_nat (length (filter aligned (range 2 (bs - 2)))) else 0).
Proof.
  unfold col_body. rewrite <- (rows_blockNo bs col).
  now destruct (fold_left _ _ st).
Qed.

Lemma cols_blockNo (bs : Z) (cols : list Z) :
  forall st : list Constraint * Z,
    snd (fold_left (col_body bs) cols st)
    = snd st + Z.of_nat (length (filter aligned cols))
               * Z.of_nat (length (filter aligned (range 2 (bs - 2)))).
Proof.
  induction cols as [| col cols IH]; intros st; simpl; [lia |].
  rewrite IH, col_body_blockNo. destruct (aligned col); simpl length; lia.
Qed.

Lemma range_snoc (lo : Z) (n : nat) :
  range lo (lo + Z.of_nat (S n)) = range lo (lo + Z.of_nat n) ++ [lo + Z.of_nat n].
Proof.
  unfold range.
  replace (Z.to_nat (lo + Z.of_nat (S n) - lo)) with (S n) by lia.
  replace (Z.to_nat (lo + Z.of_nat n - lo)) with n by lia.
  now rewrite seq_S, map_app.
Qed.

(** Of the counters 2, ..., [n+1] of a loop, [ceil(n/3)] are at the
    corner of a block. *)
Lemma aligned_count (n : nat) :
  Z.of_nat (length (filter aligned (range 2 (2 + Z.of_nat n)))) = (Z.of_nat n + 2) / 3.
Proof.
  induction n as [| n IH].
  - reflexivity.
  - rewrite range_snoc, filter_app, length_app, Nat2Z.inj_add, IH.
    cbn [filter]. unfold aligned at 1.
    rewrite Z.rem_mod_nonneg by lia.
    destruct (Z.eqb_spec ((2 + Z.of_nat n) mod 3) 2) as [He | Hne]; cbn [length];
      rewrite Nat2Z.inj_succ; Z.div_mod_to_equations; lia.
Qed.

Lemma blockNo_final (size : Z) :
  0 <= size ->
  forall st : list Constraint * Z,
    snd (fold_left (col_body (size + 4)) (range 2 (size + 4 - 2)) st)
    = snd st + blocks size.
Proof.
  intros Hsize st. rewrite cols_blockNo. f_equal.
  replace (size + 4 - 2) with (2 + Z.of_nat (Z.to_nat size)) by lia.
  rewrite aligned_count, Z2Nat.id by lia. unfold blocks. now rewrite Z.pow_2_r.
Qed.

(** All that the constructor posts mentions variables within bounds. *)
Lemma posted_vars_ok (size : Z) :
  0 <= size ->
  vars_ok (size + 4) (blocks size) (posted (new_MaximumDensityStillLife size)).
Proof.
  intros Hsize. unfold new_MaximumDensityStillLife.
  set (st0 := (_ ++ _, 0)).
  assert (Hblocks : 0 <= blocks size) by (unfold blocks; apply Z.pow_nonneg;
    apply Z.div_pos; lia).
  assert (Hinit : 0 <= snd st0 /\ vars_ok (size + 4) (Z.max (blocks size) (snd st0)) (fst st0)).
  { split; [cbn; lia |]. unfold st0. cbn [fst snd]. rewrite Z.max_l by lia.
    intros c v Hc Hv. rewrite !in_app_iff in Hc.
    destruct Hc as [[Hc | [Hc | Hc]] | Hc].
    - apply in_map_iff in Hc as (v' & <- & Hv'). apply in_map_iff in Hv' as (i & <- & Hi).
      destruct Hv as [<- | []]. apply In_range in Hi. simpl. lia.
    - apply in_map_iff in Hc as (v' & <- & Hv'). apply in_map_iff in Hv' as (i & <- & Hi).
      destruct Hv as [<- | []]. apply In_range in Hi. simpl. lia.
    - destruct Hc as [<- | []]. destruct Hv as [<- | []]. exact I.
    - simpl in Hc. destruct Hc as [<- | Hc].
      + cbn [vars_of vars_of_lin] in Hv. apply in_app_iff in Hv as [Hv | Hv].
        * apply in_map_iff in Hv as (i & <- & Hi). apply In_range in Hi. simpl. lia.
        * destruct Hv as [<- | []]. exact I.
      + repeat (destruct Hc as [<- | Hc];
                [cbn [vars_of] in Hv; eapply slice_ok; [| | | | exact Hv]; lia |]).
        destruct Hc. }
  pose proof (fold_left_invariant (col_body (size + 4))
                (fun st => 0 <= snd st
                           /\ vars_ok (size + 4) (Z.max (blocks size) (snd st)) (fst st))
                (range 2 (size + 4 - 2))
                (fun st col Hcol => col_body_ok (size + 4) (blocks size) col st
                                      (proj1 (In_range _ _ _) Hcol))
                st0 Hinit) as [_ Hok].
  rewrite (blockNo_final size Hsize st0) in Hok.
  destruct (fold_left _ _ st0) as [cs blockNo]. cbn [fst snd posted] in *.
  eapply vars_ok_mono; [| exact Hok]. unfold st0. cbn [snd]. lia.
Qed.

Lemma var_ok_declared (size : Z) (v : Var) :
  var_ok (size + 4) (blocks size) v -> declared (new_MaximumDensityStillLife size) v.
Proof.
  assert (Hinterior : forall col row c,
             2 <= col < size + 4 - 2 -> 2 <= row < size + 4 - 2 ->
             In c [ dom (two_neighbours col row) 0 1; dom (three_neighbours col row) 0 1;
                    dom (still_live col row) 0 1 ] ->
             In c (posted (new_MaximumDensityStillLife size))).
  { intros col row c Hcol Hrow Hc. unfold new_MaximumDensityStillLife.
    set (st0 := (_ ++ _, 0)).
    assert (Hrowpost : forall st, In c (fst (row_body (size + 4) col st row))).
    { intros [cs blockNo]. unfold row_body.
      destruct (_ && _); cbn [fst]; rewrite ?in_app_iff; tauto. }
    assert (Hrows : forall rows st, In row rows ->
                      In c (fst (fold_left (row_body (size + 4) col) rows st))).
    { induction rows as [| row' rows IH]; intros st Hin; [destruct Hin |]. simpl.
      destruct Hin as [-> | Hin]; [apply rows_keep, Hrowpost | now apply IH]. }
    assert (Hcolpost : forall st, In c (fst (col_body (size + 4) st col))).
    { intros st. unfold col_body.
      pose proof (Hrows (range 2 (size + 4 - 2)) st (proj2 (In_range _ _ _) Hrow)) as Hin.
      destruct (fold_left _ _ st). cbn [fst] in *. rewrite in_app_iff. now left. }
    assert (Hcols : forall cols st, In col cols ->
                      In c (fst (fold_left (col_body (size + 4)) cols st))).
    { induction cols as [| col' cols IH]; intros st Hin; [destruct Hin |]. simpl.
      destruct Hin as [-> | Hin]; [apply cols_keep, Hcolpost | now apply IH]. }
    pose proof (Hcols (range 2 (size + 4 - 2)) st0 (proj2 (In_range _ _ _) Hcol)) as Hin.
    destruct (fold_left _ _ st0). exact Hin. }
  unfold declared. destruct v as [i | i | | col row | col row | col row]; simpl; intros Hok.
  - exists 0, 1. apply posted_before_loops. left. rewrite in_app_iff. left.
    apply in_map_iff. exists (cells_at i). split; [reflexivity |].
    apply in_map_iff. exists i. split; [reflexivity | apply In_range; lia].
  - exists 0, 6. apply posted_before_loops. left. rewrite !in_app_iff. right. left.
    apply in_map_iff. exists (sliceOfMDP_at i). split; [reflexivity |].
    apply in_map_iff. exists i. split; [reflexivity | apply In_range; lia].
  - exists 0, (size ^ 2). apply posted_before_loops. left. rewrite !in_app_iff.
    right. right. now left.
  - exists 0, 1. apply (Hinterior col row); [lia | lia | simpl; tauto].
  - exists 0, 1. apply (Hinterior col row); [lia | lia | simpl; tauto].
  - exists 0, 1. apply (Hinterior col row); [lia | lia | simpl; tauto].
Qed.

(** X17: the constructor stays within bounds: every variable that a
    posted constraint mentions is one it has created.  A cell is an
    element of [cells], so every access to the matrix and every slice
    lies on the board; an entry of [sliceOfMDP] is below its size, so
    [blockNo] never runs past the array. *)
Theorem constructor_within_bounds (size : Z) (c : Constraint) (v : Var) :
  0 <= size ->
  In c (posted (new_MaximumDensityStillLife size)) -> In v (vars_of c) ->
  declared (new_MaximumDensityStillLife size) v
  /\ match v with
     | cells_at _ => In v (cells (new_MaximumDensityStillLife size))
     | sliceOfMDP_at _ => In v (sliceOfMDP (new_MaximumDensityStillLife size))
     | _ => True
     end.
Proof.
  intros Hsize Hc Hv. pose proof (posted_vars_ok size Hsize c v Hc Hv) as Hok.
  split; [now apply var_ok_declared |].
  unfold new_MaximumDensityStillLife. destruct (fold_left _ _ _). cbn [cells sliceOfMDP].
  destruct v; simpl in Hok; try exact I;
    apply in_map_iff; eexists; (split; [reflexivity | apply In_range; lia]).
Qed.

(** ** Blocks *)

(** At the corner of a block the loops tie the sum of the block to an
    entry of [sliceOfMDP]. *)
Lemma posted_block (size col row : Z) :
  2 <= col < size + 2 -> 2 <= row < size + 2 ->
  aligned col = true -> aligned row = true ->
  exists i,
    In (linear_var (slice (size + 4) col (col + 3) row (row + 3)) IRT_EQ (sliceOfMDP_at i))
       (posted (new_MaximumDensityStillLife size)).
Proof.
  intros Hcol Hrow Hac Har.
  set (block := fun i => linear_var (slice (size + 4) col (col + 3) row (row + 3)) IRT_EQ
                                    (sliceOfMDP_at i)).
  assert (Hrowpost : forall st, In (block (snd st)) (fst (row_body (size + 4) col st row))).
  { intros [cs blockNo]. unfold row_body. fold (aligned col) (aligned row).
    rewrite Hac, Har. cbn [andb fst snd]. rewrite in_app_iff. right. now left. }
  assert (Hrows : forall rows st, In row rows ->
            exists i, In (block i) (fst (fold_left (row_body (size + 4) col) rows st))).
  { induction rows as [| row' rows IH]; intros st Hin; [destruct Hin |]. simpl.
    destruct Hin as [-> | Hin]; [| now apply IH].
    exists (snd st). apply rows_keep, Hrowpost. }
  assert (Hcolpost : forall st, exists i, In (block i) (fst (col_body (size + 4) st col))).
  { intros st. unfold col_body.
    destruct (Hrows (range 2 (size + 4 - 2)) st) as (i & Hin); [apply In_range; lia |].
    exists i. destruct (fold_left _ _ st). cbn [fst] in *. rewrite in_app_iff. now left. }
  assert (Hcols : forall cols st, In col cols ->
            exists i, In (block i) (fst (fold_left (col_body (size + 4)) cols st))).
  { induction cols as [| col' cols IH]; intros st Hin; [destruct Hin |]. simpl.
    destruct Hin as [-> | Hin]; [| now apply IH].
    destruct (Hcolpost st) as (i & Hi). exists i. now apply cols_keep. }
  unfold new_MaximumDensityStillLife. set (st0 := (_ ++ _, 0)).
  destruct (Hcols (range 2 (size + 4 - 2)) st0) as (i & Hin); [apply In_range; lia |].
  exists i. destruct (fold_left _ _ st0). exact Hin.
Qed.

(** X18: in every solution a block of three by three cells whose corner
    the loops visit holds as many live cells as an entry of [sliceOfMDP]
    says, and that is at most 6. *)
Theorem block_holds_at_most_six (size col row : Z) (a : Assignment) :
  0 <= size ->
  solution (new_MaximumDensityStillLife size) a = true ->
  interior (new_MaximumDensityStillLife size) col row ->
  Z.rem col 3 = 2 -> Z.rem row 3 = 2 ->
  exists v,
    In v (sliceOfMDP (new_MaximumDensityStillLife size))
    /\ sum_of a (slice (size + 4) col (col + 3) row (row + 3)) = a v
    /\ 0 <= a v <= 6.
Proof.
  intros Hsize Hsol Hint Hcol Hrow.
  unfold interior in Hint. rewrite board_size_new in Hint.
  destruct (posted_block size col row) as (i & Hposted);
    try lia; try (unfold aligned; now apply Z.eqb_eq).
  pose proof (posted_vars_ok size Hsize _ (sliceOfMDP_at i) Hposted (or_introl eq_refl)) as Hi.
  cbn [var_ok] in Hi.
  assert (Hdom : In (dom (sliceOfMDP_at i) 0 6) (posted (new_MaximumDensityStillLife size))).
  { apply posted_before_loops. left. rewrite !in_app_iff. right. left.
    apply in_map_iff. exists (sliceOfMDP_at i). split; [reflexivity |].
    apply in_map_iff. exists i. split; [reflexivity | now apply In_range]. }
  pose proof (solution_holds _ _ _ Hsol Hposted) as Hsum.
  pose proof (solution_holds _ _ _ Hsol Hdom) as Hrange.
  cbn [holds irt_holds] in Hsum, Hrange.
  apply Z.eqb_eq in Hsum. apply andb_true_iff in Hrange as [Hlo Hhi].
  exists (sliceOfMDP_at i). split; [| split; [exact Hsum | lia]].
  unfold new_MaximumDensityStillLife. destruct (fold_left _ _ _). cbn [sliceOfMDP].
  apply in_map_iff. exists i. split; [reflexivity | now apply In_range].
Qed.

(** ** Neighbours *)

(** X19: on a board of side 3 or more [getNeighbours] returns eight
    different cells, none of them the cell itself; for an interior cell
    they are cells of the board.  So the sums over them count each
    neighbour once. *)
Theorem neighbours_are_distinct (size col row : Z) :
  0 <= size ->
  length (getNeighbours (size + 4) col row) = 8%nat
  /\ NoDup (getNeighbours (size + 4) col row)
  /\ ~ In (matrix (size + 4) col row) (getNeighbours (size + 4) col row)
  /\ (interior (new_MaximumDensityStillLife size) col row ->
      forall v, In v (getNeighbours (size + 4) col row) ->
                In v (cells (new_MaximumDensityStillLife size))).
Proof.
  intros Hsize. split; [reflexivity | split; [| split]].
  - unfold getNeighbours, matrix.
    repeat (constructor;
            [cbn [In]; intros Hin;
             repeat (destruct Hin as [Heq | Hin]; [injection Heq; nia |]); exact Hin |]).
    constructor.
  - unfold getNeighbours, matrix. cbn [In]. intros Hin.
    repeat (destruct Hin as [Heq | Hin]; [injection Heq; nia |]). exact Hin.
  - unfold interior. rewrite board_size_new. intros [Hcol Hrow] v Hin.
    pose proof (neighbours_ok (size + 4) 0 col row v ltac:(lia) ltac:(lia) Hin) as Hok.
    unfold new_MaximumDensityStillLife. destruct (fold_left _ _ _). cbn [cells].
    unfold getNeighbours in Hin. cbn [In] in Hin.
    repeat (destruct Hin as [<- | Hin];
            [unfold matrix in *; cbn [var_ok] in Hok; apply in_map_iff; eexists;
             split; [reflexivity | apply In_range; lia] |]).
    destruct Hin.
Qed.

(** ** The theorems at two solutions of the model of size 4 *)

Ltac size_four_facts :=
  assert (Hsize : 0 <= 4) by lia;
  assert (Hzero : solution (new_MaximumDensityStillLife 4) all_zero = true)
    by (vm_compute; reflexivity);
  assert (Hblock : solution (new_MaximumDensityStillLife 4) block_pattern = true)
    by (vm_compute; reflexivity);
  assert (Hinterior : interior (new_MaximumDensityStillLife 4) 2 2)
    by (unfold interior; change (board_size (new_MaximumDensityStillLife 4)) with 8; lia).

(** The corner of the board is dead in the block. *)
Lemma border_is_empty_witness :
  solution (new_MaximumDensityStillLife 4) block_pattern = true
  /\ 0 <= block_pattern (matrix (4 + 4) 0 0) <= 1
  /\ (~ interior (new_MaximumDensityStillLife 4) 0 0 ->
      block_pattern (matrix (4 + 4) 0 0) = 0).
Proof.
  size_four_facts. split; [exact Hblock |].
  exact (border_is_empty 4 block_pattern 0 0 Hsize Hblock ltac:(lia) ltac:(lia)).
Defined.

(** A live cell of the block has three live neighbours. *)
Lemma live_cell_has_two_or_three_witness :
  solution (new_MaximumDensityStillLife 4) block_pattern = true
  /\ block_pattern (matrix (4 + 4) 2 2) = 1
  /\ (live_neighbours (new_MaximumDensityStillLife 4) block_pattern 2 2 = 2
      \/ live_neighbours (new_MaximumDensityStillLife 4) block_pattern 2 2 = 3).
Proof.
  size_four_facts.
  assert (Hlive : block_pattern (matrix (4 + 4) 2 2) = 1) by reflexivity.
  split; [exact Hblock | split; [exact Hlive |]].
  exact (live_cell_has_two_or_three 4 2 2 block_pattern Hblock Hinterior Hlive).
Defined.

(** The cell to the left of the block stays dead. *)
Lemma inner_border_stays_dead_witness :
  solution (new_MaximumDensityStillLife 4) block_pattern = true
  /\ ~ interior (new_MaximumDensityStillLife 4) 1 2
  /\ block_pattern (matrix (4 + 4) 1 2) = 0
  /\ live_neighbours (new_MaximumDensityStillLife 4) block_pattern 1 2 < 3.
Proof.
  size_four_facts.
  assert (Hring : ~ interior (new_MaximumDensityStillLife 4) 1 2)
    by (unfold interior; change (board_size (new_MaximumDensityStillLife 4)) with 8; lia).
  split; [exact Hblock | split; [exact Hring |]].
  exact (inner_border_stays_dead 4 block_pattern 1 2 Hsize Hblock
           ltac:(lia) ltac:(lia) Hring).
Defined.

(** The block improves on the empty board. *)
Lemma constrain_twice_witness :
  solution (constrain (new_MaximumDensityStillLife 4) all_zero) block_pattern = true
  /\ solution (constrain (constrain (new_MaximumDensityStillLife 4) all_zero) block_pattern)
              all_zero
     = solution (constrain (new_MaximumDensityStillLife 4) block_pattern) all_zero.
Proof.
  assert (Himproves :
            solution (constrain (new_MaximumDensityStillLife 4) all_zero) block_pattern = true)
    by (vm_compute; reflexivity).
  split; [exact Himproves |].
  exact (constrain_twice (new_MaximumDensityStillLife 4) all_zero block_pattern all_zero
           Himproves).
Defined.

(** The empty board, then the block: two improving solutions. *)
Lemma improving_solutions_bounded_witness :
  improving (new_MaximumDensityStillLife 4) None [all_zero; block_pattern]
  /\ Z.of_nat (length [all_zero; block_pattern]) <= 4 ^ 2 + 1.
Proof.
  size_four_facts.
  assert (Himp : improving (new_MaximumDensityStillLife 4) None [all_zero; block_pattern]).
  { cbn [improving]. split; [exact I | split; [| exact I]].
    split; vm_compute; reflexivity. }
  split; [exact Himp |].
  exact (improving_solutions_bounded 4 [all_zero; block_pattern]
           (Forall_cons _ Hzero (Forall_cons _ Hblock (Forall_nil _))) Himp).
Defined.

(** The declaration of [noOfLives] mentions a variable that is declared. *)
Lemma constructor_within_bounds_witness :
  0 <= 4
  /\ In (dom noOfLives_var 0 (4 ^ 2)) (posted (new_MaximumDensityStillLife 4))
  /\ declared (new_MaximumDensityStillLife 4) noOfLives_var.
Proof.
  assert (Hsize : 0 <= 4) by lia.
  assert (Hposted : In (dom noOfLives_var 0 (4 ^ 2)) (posted (new_MaximumDensityStillLife 4))).
  { apply posted_before_loops. left. rewrite !in_app_iff. right. right. now left. }
  split; [exact Hsize | split; [exact Hposted |]].
  exact (proj1 (constructor_within_bounds 4 _ noOfLives_var Hsize Hposted
                  (or_introl eq_refl))).
Defined.

(** The first block of the block pattern holds four live cells. *)
Lemma block_holds_at_most_six_witness :
  solution (new_MaximumDensityStillLife 4) block_pattern = true
  /\ exists v,
      In v (sliceOfMDP (new_MaximumDensityStillLife 4))
      /\ sum_of block_pattern (slice (4 + 4) 2 (2 + 3) 2 (2 + 3)) = block_pattern v
      /\ 0 <= block_pattern v <= 6.
Proof.
  size_four_facts. split; [exact Hblock |].
  exact (block_holds_at_most_six 4 2 2 block_pattern Hsize Hblock Hinterior
           eq_refl eq_refl).
Defined.

(** The neighbours of the corner of the pattern of size 4. *)
Lemma neighbours_are_distinct_witness :
  length (getNeighbours (4 + 4) 2 2) = 8%nat /\ NoDup (getNeighbours (4 + 4) 2 2).
Proof.
  assert (Hsize : 0 <= 4) by lia.
  pose proof (neighbours_are_distinct 4 2 2 Hsize) as (Hlen & Hnodup & _).
  split; assumption.
Defined.

End StillLifeModel.
